(** * rseq2midi: the sequence interpreter of [rseq2midi.cpp]

    A shallow embedding of the track accumulator ([Track_t]), the offset
    readers ([ReadBE], [ReadVarLen]), the opcode loop of [rseqDo] and the
    MIDI writer that closes it, followed by the properties of the
    specification that concern them.

    Conventions of the embedding.
    - The C types [u8], [u16], [u32] are [Z] with the wrap-around written
      out by [u8], [u16], [u32]; [s32] reinterprets a [u32] as signed.
    - The input [FILE*] is a list of bytes and an explicit read offset;
      [fgetc] yields [EOF] (-1) and leaves the offset alone past the end.
      Offsets are taken as the non-negative [long] of an LP64 host.
    - A track's [vector<u8> gData] is a list of bytes, its
      [vector<Note_t> gNote] a list of notes in vector order.
    - The sixteen slots [gData.gTrack] are a list indexed with stdpp's
      lookup and insert; an index that leaves the array, and a division by
      zero, are the two faults of the embedding ([Fault]).
    - [qsort] belongs to the C library, not to the program: the interpreter
      is parameterised by it, and the properties that depend on sorting
      assume exactly the contract that the C standard gives ([qsort_contract]). *)

From Stdlib Require Import ZArith List Lia Bool String Ascii Permutation Sorted.
From stdpp Require Import base list gmap.
Import ListNotations.
Local Open Scope Z_scope.

(** ** Machine integers *)

Definition u8 (x : Z) : Z := x mod 256.
Definition u16 (x : Z) : Z := x mod 65536.
Definition u32 (x : Z) : Z := x mod 4294967296.

(** A [u32] converted to [int] (two's complement). *)
Definition s32 (x : Z) : Z :=
  let y := u32 x in if y <? 2147483648 then y else y - 4294967296.

(** ** The input file *)

Definition EOF : Z := -1.

(** [fgetc]: the byte at the offset as an [unsigned char], or [EOF]. *)
Definition fgetc (f : list Z) (off : Z) : Z * Z :=
  match f !! Z.to_nat off with
  | Some b => (u8 b, off + 1)
  | None => (EOF, off)
  end.

(** [for(s32 i=b-8;i>=0;i-=8) v |= fgetc(f) << i;] *)
Fixpoint ReadBE_loop (n : nat) (f : list Z) (off i v : Z) : Z * Z :=
  match n with
  | O => (v, off)
  | S n' =>
      let '(c, off') := fgetc f off in
      ReadBE_loop n' f off' (i - 8) (Z.lor v (u32 (Z.shiftl c i)))
  end.

Definition ReadBE (f : list Z) (off b : Z) : Z * Z :=
  ReadBE_loop (Z.to_nat (b / 8)) f off (b - 8) 0.

(** [ReadVarLen]: seven bits per byte, most significant group first, as long
    as the top bit of the byte read is set. At the end of the file [fgetc]
    returns [EOF] for ever, [c & 0x80] is never zero and the [while(1)] does
    not exit: that run has no result ([None]). Any other run ends within the
    bytes that are left, so the recursion is on them. *)
Fixpoint ReadVarLen_from (rest : list Z) (t off : Z) : option (Z * Z) :=
  match rest with
  | [] => None
  | b :: rest' =>
      let c := u32 (u8 b) in
      let t' := u32 (Z.lor (Z.shiftl t 7) (Z.land c 127)) in
      if Z.land c 0x80 =? 0 then Some (t', off + 1)
      else ReadVarLen_from rest' t' (off + 1)
  end.

Definition ReadVarLen (f : list Z) (off : Z) : option (Z * Z) :=
  ReadVarLen_from (drop (Z.to_nat off) f) 0 off.

(** ** Notes and tracks *)

Record Note_t := mkNote {
  key : Z;  (* key *)
  pos : Z   (* end [tick] *)
}.

(** [NoteSortCmp]: the [u32] difference of the end ticks, returned as [int]. *)
Definition NoteSortCmp (a b : Note_t) : Z := s32 (pos a - pos b).

Record Track_t := mkTrack {
  gIndx : Z;            (* self-index *)
  gStat : Z;            (* on/off *)
  gTrns : Z;            (* transpose *)
  gRPNR : Z;            (* RPNs ready *)
  gWait : Z;            (* waiting left *)
  gDPos : Z;            (* data position [offset] *)
  gGPos : Z;            (* global position [tick] *)
  gRPos : Z;            (* return position [offset] *)
  gNote : list Note_t;  (* notes *)
  gData : list Z        (* midi data *)
}.

Definition set_gStat (v : Z) (t : Track_t) : Track_t :=
  mkTrack (gIndx t) v (gTrns t) (gRPNR t) (gWait t) (gDPos t) (gGPos t)
          (gRPos t) (gNote t) (gData t).
Definition set_gRPNR (v : Z) (t : Track_t) : Track_t :=
  mkTrack (gIndx t) (gStat t) (gTrns t) v (gWait t) (gDPos t) (gGPos t)
          (gRPos t) (gNote t) (gData t).
Definition set_gWait (v : Z) (t : Track_t) : Track_t :=
  mkTrack (gIndx t) (gStat t) (gTrns t) (gRPNR t) v (gDPos t) (gGPos t)
          (gRPos t) (gNote t) (gData t).
Definition set_gDPos (v : Z) (t : Track_t) : Track_t :=
  mkTrack (gIndx t) (gStat t) (gTrns t) (gRPNR t) (gWait t) v (gGPos t)
          (gRPos t) (gNote t) (gData t).
Definition set_gGPos (v : Z) (t : Track_t) : Track_t :=
  mkTrack (gIndx t) (gStat t) (gTrns t) (gRPNR t) (gWait t) (gDPos t) v
          (gRPos t) (gNote t) (gData t).
Definition set_gRPos (v : Z) (t : Track_t) : Track_t :=
  mkTrack (gIndx t) (gStat t) (gTrns t) (gRPNR t) (gWait t) (gDPos t) (gGPos t)
          v (gNote t) (gData t).
Definition set_gNote (v : list Note_t) (t : Track_t) : Track_t :=
  mkTrack (gIndx t) (gStat t) (gTrns t) (gRPNR t) (gWait t) (gDPos t) (gGPos t)
          (gRPos t) v (gData t).
Definition set_gData (v : list Z) (t : Track_t) : Track_t :=
  mkTrack (gIndx t) (gStat t) (gTrns t) (gRPNR t) (gWait t) (gDPos t) (gGPos t)
          (gRPos t) (gNote t) v.

(** [gData.push_back(v)]: the value is stored as a [u8]. *)
Definition push_back (v : Z) (t : Track_t) : Track_t :=
  set_gData (gData t ++ [u8 v]) t.

(** [Reset]: every field but [gWait], which the source leaves as it is. *)
Definition Reset (idx : Z) (t : Track_t) : Track_t :=
  mkTrack (u8 idx) 0 0 0 (gWait t) 0 0 0 [] [].

(** [Start]: [gIndx], [gRPNR] and [gWait] are kept. *)
Definition Start (adr : Z) (t : Track_t) : Track_t :=
  mkTrack (gIndx t) 1 0 (gRPNR t) (gWait t) adr 0 0 [] [].

(** *** Delta times *)

(** [while(n > 127) { c++; n >>= 7; }] on a [u32]: five shifts by seven
    clear it, so the bound is never what stops the count. *)
Fixpoint PushDelta_count (bound : nat) (n : Z) (c : nat) : nat :=
  match bound with
  | O => c
  | S k => if n >? 127 then PushDelta_count k (Z.shiftr n 7) (S c) else c
  end.

(** [for(int i=c;i>=0;i--)]: the bytes pushed, most significant group first. *)
Fixpoint PushDelta_emit (i : nat) (t : Z) : list Z :=
  let v := Z.land (Z.shiftr t (7 * Z.of_nat i)) 127 in
  match i with
  | O => [u8 v]
  | S j => u8 (Z.lor v 0x80) :: PushDelta_emit j t
  end.

Definition PushDelta_bytes (t : Z) : list Z :=
  let t := u32 t in
  PushDelta_emit (PushDelta_count 5 t 0) t.

Definition PushDelta (t : Z) (trk : Track_t) : Track_t :=
  set_gData (gData trk ++ PushDelta_bytes t) trk.

Definition ProcDelta (trk : Track_t) : Track_t :=
  set_gWait 0 (PushDelta (gWait trk) trk).

(** [Event]: delta, then the command or-ed with the track index, then the
    argument bytes. *)
Definition Event (ev : Z) (argv : list Z) (trk : Track_t) : Track_t :=
  let trk := ProcDelta trk in
  let trk := push_back (Z.lor ev (gIndx trk)) trk in
  fold_left (fun t a => push_back a t) argv trk.

(** *** Emitters *)

Definition mNoteOn (key vel time : Z) (trk : Track_t) : Track_t :=
  let trk := Event 0x90 [key; vel] trk in
  set_gNote (gNote trk ++ [mkNote key (u32 (gGPos trk + time))]) trk.

Definition mGenCtrl (ctrlType ctrlData : Z) (trk : Track_t) : Track_t :=
  Event 0xB0 [ctrlType; ctrlData] trk.

Definition mVol (vol : Z) (trk : Track_t) : Track_t := Event 0xB0 [0x07; vol] trk.
Definition mPan (pan : Z) (trk : Track_t) : Track_t := Event 0xB0 [0x0A; pan] trk.
Definition mExp (exp : Z) (trk : Track_t) : Track_t := Event 0xB0 [0x0B; exp] trk.
Definition mPrg (prg : Z) (trk : Track_t) : Track_t := Event 0xC0 [prg] trk.

Definition mBnd (bnd : Z) (trk : Track_t) : Track_t :=
  let n := u32 (0x2000 + u32 (bnd * 16384) / 256) in
  Event 0xE0 [Z.land n 127; Z.shiftr n 7] trk.

(** [mBndRng]: the select pair only when [gRPNR] is clear; [gRPNR] is set
    there and not cleared here. *)
Definition mBndRng (rng : Z) (trk : Track_t) : Track_t :=
  let trk :=
    if gRPNR trk =? 0 then
      let trk := set_gRPNR 1 trk in
      let trk := Event 0xB0 [0x65; 0] trk in
      Event 0xB0 [0x64; 0] trk
    else trk in
  Event 0xB0 [0x06; rng] trk.

Definition mRPN (msb lsb data : Z) (trk : Track_t) : Track_t :=
  let trk := Event 0xB0 [0x65; lsb] trk in
  let trk := Event 0xB0 [0x64; msb] trk in
  let trk := Event 0xB0 [0x06; data] trk in
  set_gRPNR 0 trk.

Definition mNRPN (msb lsb data : Z) (trk : Track_t) : Track_t :=
  let trk := Event 0xB0 [0x63; lsb] trk in
  let trk := Event 0xB0 [0x62; msb] trk in
  let trk := Event 0xB0 [0x06; data] trk in
  set_gRPNR 0 trk.

(** [mTmp]: [60000000 / tmp] is evaluated before anything is written; a zero
    divisor has no result. *)
Definition mTmp (tmp : Z) (trk : Track_t) : option Track_t :=
  if tmp =? 0 then None
  else
    let n := 60000000 / tmp in
    Some (Event 0xFF [0x51; 3; Z.shiftr n 16; Z.shiftr n 8; n] trk).

(** [mMetaEvent]: [len] is the length of [data] at both call sites. *)
Definition mMetaEvent (type : Z) (data : list Z) (trk : Track_t) : Track_t :=
  let trk := Event 0xFF [type] trk in
  let trk := PushDelta (Z.of_nat (length data)) trk in
  fold_left (fun t b => push_back b t) data trk.

(** The note-off written by [mEnd] and [Wait]: a note-on of velocity 0. *)
Definition push_note_off (note : Note_t) (trk : Track_t) : Track_t :=
  let trk := push_back (Z.lor 0x90 (gIndx trk)) trk in
  let trk := push_back (key note) trk in
  push_back 0 trk.

(** [mEnd]: the notes are flushed in the order of the vector. *)
Definition mEnd (trk : Track_t) : Track_t :=
  let flush (t : Track_t) (note : Note_t) :=
    let t := PushDelta (gWait t) t in
    let t := set_gWait 0 t in
    push_note_off note t in
  let trk := fold_left flush (gNote trk) trk in
  let trk := set_gNote [] trk in
  let trk := Event 0xFF [0x2F; 0] trk in
  set_gStat 0 trk.

(** The [for] of [Wait]: a note that ends after [pPos] is stepped over and
    stays in the vector; any other is written and erased, and the scan goes
    on with the element that took its place. Returns the notes left, the
    track and [timeLeft]. *)
Fixpoint Wait_loop (notes : list Note_t) (pPos : Z) (trk : Track_t) (timeLeft : Z)
  : list Note_t * Track_t * Z :=
  match notes with
  | [] => ([], trk, timeLeft)
  | note :: rest =>
      if pos note >? pPos then
        let '(kept, trk', timeLeft') := Wait_loop rest pPos trk timeLeft in
        (note :: kept, trk', timeLeft')
      else
        let dif := u32 (pos note - gGPos trk) in
        let trk := PushDelta dif trk in
        let trk := push_note_off note trk in
        let trk := set_gGPos (u32 (gGPos trk + dif)) trk in
        Wait_loop rest pPos trk (u32 (timeLeft - dif))
  end.

Section Wait.
(** The C library's [qsort], applied to the note vector. *)
Variable qsort : (Note_t -> Note_t -> Z) -> list Note_t -> list Note_t.

Definition Wait (timeLeft : Z) (trk : Track_t) : Track_t :=
  let notes :=
    match gNote trk with
    | [] => []
    | _ => qsort NoteSortCmp (gNote trk)
    end in
  let pPos := u32 (gGPos trk + timeLeft) in
  let '(kept, trk, timeLeft) := Wait_loop notes pPos trk timeLeft in
  let trk := set_gNote kept trk in
  let trk := set_gGPos (u32 (gGPos trk + timeLeft)) trk in
  set_gWait (u32 (gWait trk + timeLeft)) trk.
End Wait.

(** ** The interpretation session *)

(** What [DebugMsg] is given by [rseqDo] and [Track_t::Start]. *)
Inductive Msg :=
| MsgBegin                                   (* "Begin decoding..." *)
| MsgStarted (idx adr : Z)                   (* "Trk %02u started from 0x%X..." *)
| MsgJump (i : Z) (jumpDir : bool) (adr : Z)  (* "Trk %02u: Jump (%s) to 0x%X" *)
| MsgCall (i adr : Z)                        (* "Trk %02u: Call to 0x%X" *)
| MsgEnd (i curpos : Z)                      (* "Trk %02u End at 0x%X." *)
| MsgUnknown (cmd : Z)                       (* "WARNING: Unknown command %02X" *)
| MsgOK (i : Z).                             (* "Trk %02u OK" *)

(** The state [rseqDo] works on: the sixteen tracks of [gData], the read
    offset of the input and the debug log. *)
Record RSeq := mkRSeq {
  gTrack : list Track_t;
  rseq_off : Z;
  dlog : list Msg
}.

Inductive Fault :=
| DivisionByZero
| TrackIndexOutOfRange (idx : Z).

(** How a run ends: with a value, with a fault, in a loop of the source that
    provably never exits ([Hang]), or cut by the step budget of the
    embedding ([OutOfFuel]). *)
Inductive Outcome (A : Type) :=
| Ok (a : A)
| Crash (e : Fault)
| Hang
| OutOfFuel.
Arguments Ok {A} a.
Arguments Crash {A} e.
Arguments Hang {A}.
Arguments OutOfFuel {A}.

Definition M (A : Type) : Type := RSeq -> Outcome (A * RSeq).

Definition ret {A} (a : A) : M A := fun s => Ok (a, s).

Definition bind {A B} (m : M A) (k : A -> M B) : M B :=
  fun s =>
    match m s with
    | Ok (a, s') => k a s'
    | Crash e => Crash e
    | Hang => Hang
    | OutOfFuel => OutOfFuel
    end.

Notation "'do' x <- m ; k" := (bind m (fun x => k))
  (at level 10, x name, m at level 100, k at level 200).
Notation "'run' m ; k" := (bind m (fun _ => k))
  (at level 10, m at level 100, k at level 200).

Definition ftell : M Z := fun s => Ok (rseq_off s, s).

Definition fseek (off : Z) : M unit :=
  fun s => Ok (tt, mkRSeq (gTrack s) off (dlog s)).

Definition DebugMsg (m : Msg) : M unit :=
  fun s => Ok (tt, mkRSeq (gTrack s) (rseq_off s) (dlog s ++ [m])).

(** [gData.gTrack[idx]]: the slot read. *)
Definition track_at (idx : Z) : M Track_t :=
  fun s =>
    match gTrack s !! Z.to_nat idx with
    | Some t => Ok (t, s)
    | None => Crash (TrackIndexOutOfRange idx)
    end.

(** A member function run on [gData.gTrack[idx]], in place. *)
Definition on_track (idx : Z) (m : Track_t -> Track_t) : M unit :=
  do t <- track_at idx;
  fun s => Ok (tt, mkRSeq (<[Z.to_nat idx := m t]> (gTrack s)) (rseq_off s) (dlog s)).

(** [gData.gTrack[idx].Start(adr)], with its debug line. *)
Definition Start_track (idx adr : Z) : M unit :=
  do t <- track_at idx;
  run on_track idx (Start adr);
  DebugMsg (MsgStarted (gIndx t) adr).

(** ASCII codes of a C string. *)
Definition c_str (s : string) : list Z :=
  map (fun a => Z.of_N (N_of_ascii a)) (list_ascii_of_string s).

(** [snprintf(msgbuf, 0x20, "Jump (%s, %s)", jumpDirMsg, jumpMsg)]: at most
    31 characters are kept. *)
Definition jump_msgbuf (jumpDirMsg jumpMsg : string) : list Z :=
  take 31 (c_str ("Jump (" ++ jumpDirMsg ++ ", " ++ jumpMsg ++ ")")%string).

(** The [case] labels of the switch in [rseqDo]. *)
Inductive Command :=
| CmdRest | CmdProgram | CmdSplit | CmdJump | CmdCall | CmdUnknownB0
| CmdPan | CmdVolume | CmdMasterVol | CmdTranspose | CmdBend | CmdBendRange
| CmdPriority | CmdPolyphony | CmdTie | CmdPortaCnt | CmdModDepth
| CmdModSpeed | CmdModType | CmdModRange | CmdPortamento | CmdPortaTime
| CmdAttack | CmdDecay | CmdSustain | CmdRelease | CmdLoopStart
| CmdExpression | CmdPrint | CmdUnknownD8 | CmdModDelay | CmdTempo
| CmdSweep | CmdLoopEnd | CmdReturn | CmdTrackUsage | CmdEndOfTrack.

Definition decode_cmd (cmd : Z) : option Command :=
  match cmd with
  | 0x80 => Some CmdRest
  | 0x81 => Some CmdProgram
  | 0x88 => Some CmdSplit
  | 0x89 => Some CmdJump
  | 0x8A => Some CmdCall
  | 0xB0 => Some CmdUnknownB0
  | 0xC0 => Some CmdPan
  | 0xC1 => Some CmdVolume
  | 0xC2 => Some CmdMasterVol
  | 0xC3 => Some CmdTranspose
  | 0xC4 => Some CmdBend
  | 0xC5 => Some CmdBendRange
  | 0xC6 => Some CmdPriority
  | 0xC7 => Some CmdPolyphony
  | 0xC8 => Some CmdTie
  | 0xC9 => Some CmdPortaCnt
  | 0xCA => Some CmdModDepth
  | 0xCB => Some CmdModSpeed
  | 0xCC => Some CmdModType
  | 0xCD => Some CmdModRange
  | 0xCE => Some CmdPortamento
  | 0xCF => Some CmdPortaTime
  | 0xD0 => Some CmdAttack
  | 0xD1 => Some CmdDecay
  | 0xD2 => Some CmdSustain
  | 0xD3 => Some CmdRelease
  | 0xD4 => Some CmdLoopStart
  | 0xD5 => Some CmdExpression
  | 0xD6 => Some CmdPrint
  | 0xD8 | 0xD9 | 0xDA | 0xDB => Some CmdUnknownD8
  | 0xE0 => Some CmdModDelay
  | 0xE1 => Some CmdTempo
  | 0xE3 => Some CmdSweep
  | 0xFC => Some CmdLoopEnd
  | 0xFD => Some CmdReturn
  | 0xFE => Some CmdTrackUsage
  | 0xFF => Some CmdEndOfTrack
  | _ => None
  end.

(** ** The opcode loop of [rseqDo] *)

Section Interpreter.
Variable qsort : (Note_t -> Note_t -> Z) -> list Note_t -> list Note_t.
(** The two global switches, set from the command line. *)
Variables ignoreJumps debugCtrls : bool.
(** The input file, the label table [gData.gLabels] and
    [gData.gDATAHead.fOff]. *)
Variable rseq : list Z.
Variable gLabels : gmap Z (list Z).
Variable mdOff : Z.

(** [fgetc(rseq)] stored in a [u32]. *)
Definition getc : M Z :=
  fun s =>
    let '(c, off) := fgetc rseq (rseq_off s) in
    Ok (u32 c, mkRSeq (gTrack s) off (dlog s)).

Definition readBE (b : Z) : M Z :=
  fun s =>
    let '(v, off) := ReadBE rseq (rseq_off s) b in
    Ok (v, mkRSeq (gTrack s) off (dlog s)).

Definition readVarLen : M Z :=
  fun s =>
    match ReadVarLen rseq (rseq_off s) with
    | Some (t, off) => Ok (t, mkRSeq (gTrack s) off (dlog s))
    | None => Hang
    end.

(** [trk->mTmp(...)]: the division may fault. *)
Definition on_track_mTmp (i tmp : Z) : M unit :=
  do t <- track_at i;
  match mTmp tmp t with
  | Some t' => on_track i (fun _ => t')
  | None => fun _ => Crash DivisionByZero
  end.

(** The block shared by the opcodes that are only traced:
    [if (debugCtrls) { mGenCtrl(0x70, cmd & 0x7F); mGenCtrl(0x26, cdata); }] *)
Definition debug_pair (i cmd cdata : Z) : M unit :=
  if debugCtrls then
    run on_track i (mGenCtrl 0x70 (Z.land cmd 0x7F));
    on_track i (mGenCtrl 0x26 cdata)
  else ret tt.

Definition debug_ctrl (i ctrlType ctrlData : Z) : M unit :=
  if debugCtrls then on_track i (mGenCtrl ctrlType ctrlData) else ret tt.

(** [case 0x89]. *)
Definition exec_jump (i : Z) : M bool :=
  do rel <- readBE 24;
  let adr := u32 (rel + mdOff) in
  do here <- ftell;
  let jumpDir := adr >? here in
  let jumpDirMsg := if jumpDir then "forwards"%string else "backwards"%string in
  let takeJump := jumpDir in
  let jumpMsg :=
    if ignoreJumps then "ignored"%string
    else if takeJump then "taken"%string
    else "Track End"%string in
  run DebugMsg (MsgJump i jumpDir adr);
  run on_track i (mMetaEvent 0x06 (jump_msgbuf jumpDirMsg jumpMsg));
  if negb ignoreJumps then
    if takeJump then
      run on_track i (set_gDPos adr);
      run fseek adr;
      ret true
    else
      run on_track i mEnd;
      ret false
  else ret true.

(** The body of one [case] of the switch; the result is [loop]. *)
Definition exec (i cmd curpos : Z) (c : Command) : M bool :=
  match c with
  | CmdRest =>
      do len <- readVarLen;
      run on_track i (Wait qsort len);
      ret true
  | CmdProgram =>
      do c <- getc;
      run on_track i (mPrg (Z.land c 127));
      do c <- (if Z.land c 0x80 =? 0 then ret c else getc);
      do c <- (if Z.land c 0x80 =? 0 then ret c else getc);
      ret true
  | CmdSplit =>
      do trk <- readBE 8;
      do rel <- readBE 24;
      let adr := u32 (rel + mdOff) in
      run Start_track trk adr;
      ret true
  | CmdJump => exec_jump i
  | CmdCall =>
      do rel <- readBE 24;
      let adr := u32 (mdOff + rel) in
      do here <- ftell;
      run on_track i (set_gRPos (u32 here));
      run DebugMsg (MsgCall i adr);
      run on_track i (set_gDPos adr);
      run fseek adr;
      ret true
  | CmdUnknownB0 | CmdPriority | CmdPolyphony | CmdTie | CmdPrint
  | CmdUnknownD8 =>
      do cdata <- getc;
      run debug_pair i cmd cdata;
      ret true
  | CmdPan => do v <- getc; run on_track i (mPan v); ret true
  | CmdVolume => do v <- getc; run on_track i (mVol v); ret true
  | CmdMasterVol => do cdata <- getc; run on_track i (mGenCtrl 0x27 cdata); ret true
  | CmdTranspose => do cdata <- getc; run on_track i (mNRPN 0x00 0x02 cdata); ret true
  | CmdBend => do v <- getc; run on_track i (mBnd v); ret true
  | CmdBendRange => do v <- getc; run on_track i (mBndRng v); ret true
  | CmdPortaCnt => do cdata <- getc; run on_track i (mGenCtrl 84 cdata); ret true
  | CmdModDepth => do cdata <- getc; run on_track i (mGenCtrl 1 cdata); ret true
  | CmdModSpeed => do cdata <- getc; run debug_ctrl i 0x11 cdata; ret true
  | CmdModType => do cdata <- getc; run debug_ctrl i 0x21 cdata; ret true
  | CmdModRange => do cdata <- getc; run debug_ctrl i 0x12 cdata; ret true
  | CmdPortamento => do cdata <- getc; run on_track i (mGenCtrl 65 cdata); ret true
  | CmdPortaTime => do cdata <- getc; run on_track i (mGenCtrl 5 cdata); ret true
  | CmdAttack => do cdata <- getc; run debug_ctrl i 73 cdata; ret true
  | CmdDecay =>
      do cdata <- getc;
      run (if debugCtrls then on_track i (mNRPN 0x01 0x64 cdata) else ret tt);
      ret true
  | CmdSustain => do cdata <- getc; run debug_ctrl i 91 cdata; ret true
  | CmdRelease => do cdata <- getc; run debug_ctrl i 72 cdata; ret true
  | CmdLoopStart => run on_track i (mGenCtrl 0x6F 0); ret true
  | CmdExpression => do v <- getc; run on_track i (mExp v); ret true
  | CmdModDelay =>
      do v <- readBE 16;
      let cdata := u16 v in
      run debug_ctrl i 0x10 (Z.land cdata 0x7F);
      ret true
  | CmdTempo => do v <- readBE 16; run on_track_mTmp i v; ret true
  | CmdSweep | CmdTrackUsage =>
      do v <- readBE 16;
      run debug_ctrl i 0x70 (Z.land cmd 0x7F);
      ret true
  | CmdLoopEnd => run on_track i (mGenCtrl 0x6F 1); ret true
  | CmdReturn =>
      do t <- track_at i;
      if gRPos t =? 0 then ret true
      else
        run on_track i (set_gDPos (gRPos t));
        run fseek (gRPos t);
        run on_track i (set_gRPos 0);
        ret true
  | CmdEndOfTrack =>
      run DebugMsg (MsgEnd i curpos);
      run on_track i mEnd;
      ret false
  end.

(** The head of a turn of [while(loop)]: the label of the current offset,
    if it has one, is written as a text event. The result is [curpos]. *)
Definition label_phase (i : Z) : M Z :=
  do here <- ftell;
  let curpos := u32 (here - mdOff) in
  run match gLabels !! curpos with
      | Some data => on_track i (mMetaEvent 0x06 data)
      | None => ret tt
      end;
  ret curpos.

(** One turn of [while(loop)] for track [i]; the result is [loop]. *)
Definition step (i : Z) : M bool :=
  do curpos <- label_phase i;
  do cmd <- getc;
  if cmd <? 0x80 then
    let key := cmd in
    do vel <- getc;
    do len <- readVarLen;
    run on_track i (mNoteOn key vel len);
    ret true
  else
    match decode_cmd cmd with
    | Some c => exec i cmd curpos c
    | None => run DebugMsg (MsgUnknown cmd); ret true
    end.

(** [while(loop)], cut after [steps] turns. *)
Fixpoint track_loop (steps : nat) (i : Z) : M unit :=
  match steps with
  | O => fun _ => OutOfFuel
  | S n =>
      do loop <- step i;
      if loop then track_loop n i else ret tt
  end.

(** [for(u32 i=0;i<16;i++)] over the indices still to visit; the result
    is [gTrkCnt]. *)
Fixpoint pass (steps : nat) (idxs : list Z) (gTrkCnt : bool) : M bool :=
  match idxs with
  | [] => ret gTrkCnt
  | i :: rest =>
      do trk <- track_at i;
      if gStat trk =? 0 then pass steps rest gTrkCnt
      else
        run fseek (gDPos trk);
        run track_loop steps i;
        run DebugMsg (MsgOK i);
        pass steps rest true
  end.

Definition track_indices : list Z := map Z.of_nat (seq 0 16).

(** [while(gTrkCnt)], cut after [passes] turns. *)
Fixpoint main_loop (passes steps : nat) : M unit :=
  match passes with
  | O => fun _ => OutOfFuel
  | S p =>
      do gTrkCnt <- pass steps track_indices false;
      if gTrkCnt then main_loop p steps else ret tt
  end.
End Interpreter.

(** ** The MIDI writer *)

Definition Swap32 (x : Z) : Z :=
  u32 (Z.lor (Z.lor (Z.lor (Z.shiftr x 24)
                            (Z.land (Z.shiftl x 8) 0x00FF0000))
                     (Z.land (Z.shiftr x 8) 0x0000FF00))
             (Z.shiftl x 24)).

Definition Swap16 (x : Z) : Z := u16 (Z.lor (Z.shiftr x 8) (Z.shiftl x 8)).

(** The bytes [fwrite] finds in memory for a [u32] and a [u16] field, on the
    little-endian host the byte swaps are written for. *)
Definition mem_u32 (x : Z) : list Z :=
  [u8 x; u8 (Z.shiftr x 8); u8 (Z.shiftr x 16); u8 (Z.shiftr x 24)].
Definition mem_u16 (x : Z) : list Z := [u8 x; u8 (Z.shiftr x 8)].

(** [midiHeader]: 14 bytes. *)
Definition midiHeader (trkMax : Z) : list Z :=
  mem_u32 (Swap32 0x4D546864) ++ mem_u32 (Swap32 6) ++
  mem_u16 (Swap16 1) ++ mem_u16 (Swap16 (u16 trkMax)) ++ mem_u16 (Swap16 96).

(** [trkHead] and the data of one track that has some. *)
Definition trkChunk (data : list Z) : list Z :=
  let len := u32 (Z.of_nat (length data)) in
  mem_u32 (Swap32 0x4D54726B) ++ mem_u32 (Swap32 len) ++ data.

Definition has_data (t : Track_t) : bool :=
  negb (Z.of_nat (length (gData t)) =? 0).

Definition trkMax (tracks : list Track_t) : Z :=
  Z.of_nat (length (filter (fun t => has_data t = true) tracks)).

Definition midi_file (tracks : list Track_t) : list Z :=
  midiHeader (trkMax tracks) ++
  concat (map (fun t => if has_data t then trkChunk (gData t) else []) tracks).

(** ** [rseqDo] *)

Section RseqDo.
Variable qsort : (Note_t -> Note_t -> Z) -> list Note_t -> list Note_t.
Variables ignoreJumps debugCtrls : bool.
Variable rseq : list Z.
Variable gLabels : gmap Z (list Z).
Variable mdOff : Z.

(** The bytes written to the MIDI file, after at most [passes] passes over
    the tracks of at most [steps] opcodes per track visit. *)
Definition rseqDo (passes steps : nat) : M (list Z) :=
  run DebugMsg MsgBegin;
  run Start_track 0 mdOff;
  run main_loop qsort ignoreJumps debugCtrls rseq gLabels mdOff passes steps;
  fun s => Ok (midi_file (gTrack s), s).
End RseqDo.

(** [gData] as [gData.Reset()] leaves it when the program has just started:
    static storage is zero, and [Reset] sets the index of every slot. *)
Definition Track_zero : Track_t := mkTrack 0 0 0 0 0 0 0 0 [] [].

Definition gData_Reset : RSeq :=
  mkRSeq (map (fun i => Reset i Track_zero) track_indices) 0 [].

(** ** Sorting routines and the contract of [qsort] *)

Fixpoint insert_by (before : Note_t -> Note_t -> bool) (x : Note_t)
  (l : list Note_t) : list Note_t :=
  match l with
  | [] => [x]
  | y :: r => if before x y then x :: l else y :: insert_by before x r
  end.

Definition isort_by (before : Note_t -> Note_t -> bool) (l : list Note_t)
  : list Note_t :=
  fold_right (insert_by before) [] l.

(** Two routines that sort with the comparison function they are given. The
    first keeps elements that compare equal in their order; the second puts
    an element behind the ones it compares equal to, which reverses them. *)
Definition qsort_stable (cmp : Note_t -> Note_t -> Z) : list Note_t -> list Note_t :=
  isort_by (fun x y => cmp x y <=? 0).

Definition qsort_unstable (cmp : Note_t -> Note_t -> Z) : list Note_t -> list Note_t :=
  isort_by (fun x y => cmp x y <? 0).

(** The comparison function orders the elements of the array consistently:
    the sign flips with the arguments, and "not after" is transitive. *)
Definition cmp_consistent (cmp : Note_t -> Note_t -> Z) (l : list Note_t) : Prop :=
  (forall a b, In a l -> In b l ->
     (cmp a b < 0 <-> 0 < cmp b a) /\ (cmp a b = 0 <-> cmp b a = 0)) /\
  (forall a b c, In a l -> In b l -> In c l ->
     cmp a b <= 0 -> cmp b c <= 0 -> cmp a c <= 0).

(** What the C standard promises of [qsort]: with a consistent comparison
    the array is rearranged into ascending order. Nothing is said of the
    order of elements that compare equal. *)
Definition qsort_contract
  (qsort : (Note_t -> Note_t -> Z) -> list Note_t -> list Note_t) : Prop :=
  forall cmp l, cmp_consistent cmp l ->
    Permutation l (qsort cmp l) /\
    StronglySorted (fun a b => cmp a b <= 0) (qsort cmp l).

(** ** Statements of the specification, for comparison with the code *)

(** The Note Scheduler's [advance] as the specification words it, over
    unbounded integers, for a given way [sort] of ordering the notes:
    (1) sort; (2) [target = local_time + ticks_to_wait]; (3) as long as the
    earliest note has [end_tick <= target], write [end_tick - local_time] as
    a delta and its note-off, move [local_time] there, take the delta off the
    ticks and remove the note; (4) add what is left of the ticks to
    [local_time] and to [wait_accumulated]. *)
Fixpoint advance_loop (sorted : list Note_t) (target : Z) (trk : Track_t)
  (ticks : Z) : list Note_t * Track_t * Z :=
  match sorted with
  | [] => ([], trk, ticks)
  | note :: rest =>
      if pos note <=? target then
        let delta := pos note - gGPos trk in
        let trk := PushDelta delta trk in
        let trk := push_note_off note trk in
        let trk := set_gGPos (gGPos trk + delta) trk in
        advance_loop rest target trk (ticks - delta)
      else (sorted, trk, ticks)
  end.

Definition advance (sort : list Note_t -> list Note_t) (ticks_to_wait : Z)
  (trk : Track_t) : Track_t :=
  let sorted := sort (gNote trk) in
  let target := gGPos trk + ticks_to_wait in
  let '(rest, trk, remaining) := advance_loop sorted target trk ticks_to_wait in
  let trk := set_gNote rest trk in
  let trk := set_gGPos (gGPos trk + remaining) trk in
  set_gWait (gWait trk + remaining) trk.

(** "Sorted by [end_tick] ascending, ties broken by insertion order". *)
Definition sort_by_end_tick : list Note_t -> list Note_t :=
  isort_by (fun x y => pos x <=? pos y).

(** The bytes of the note-offs of the notes [ns] written one after the
    other on channel [idx], the first after a delta of [w] ticks and the
    others after a delta of zero. *)
Fixpoint flush_bytes (idx w : Z) (ns : list Note_t) : list Z :=
  match ns with
  | [] => []
  | n :: r =>
      PushDelta_bytes w ++ [u8 (Z.lor 0x90 idx); u8 (key n); 0] ++
      flush_bytes idx 0 r
  end.

(** The annotation of a jump, by direction and by the [ignoreJumps] switch. *)
Definition jump_text (forwards ignored : bool) : string :=
  match forwards, ignored with
  | true, false => "Jump (forwards, taken)"
  | false, false => "Jump (backwards, Track End)"
  | true, true => "Jump (forwards, ignored)"
  | false, true => "Jump (backwards, ignored)"
  end.

(** ** Tick arithmetic within 32 bits *)

(** Notes that end at or after tick [g], less than 2^31 ticks later, at a
    tick that fits a [u32]. *)
Definition notes_within (g : Z) (l : list Note_t) : Prop :=
  Forall (fun n => g <= pos n < g + 2147483648 /\ pos n < 4294967296) l.

(** A track whose tick counter is a [u32] and whose sounding notes end at or
    after it, less than 2^31 ticks later. *)
Definition trk_ok (t : Track_t) : Prop :=
  0 <= gGPos t < 4294967296 /\ notes_within (gGPos t) (gNote t).

(** The calls the opcode loop makes on a running track, where the tick
    arithmetic of [mNoteOn] and [Wait] does not wrap. *)
Inductive track_op (qsort : (Note_t -> Note_t -> Z) -> list Note_t -> list Note_t)
  : Track_t -> Track_t -> Prop :=
| op_mNoteOn t key vel time :
    0 <= time < 2147483648 -> gGPos t + time < 4294967296 ->
    track_op qsort t (mNoteOn key vel time t)
| op_Wait t timeLeft :
    0 <= timeLeft -> gGPos t + timeLeft < 4294967296 ->
    track_op qsort t (Wait qsort timeLeft t)
| op_mPrg t prg : track_op qsort t (mPrg prg t)
| op_mGenCtrl t ctrlType ctrlData : track_op qsort t (mGenCtrl ctrlType ctrlData t)
| op_mVol t vol : track_op qsort t (mVol vol t)
| op_mPan t pan : track_op qsort t (mPan pan t)
| op_mExp t exp : track_op qsort t (mExp exp t)
| op_mBnd t bnd : track_op qsort t (mBnd bnd t)
| op_mBndRng t rng : track_op qsort t (mBndRng rng t)
| op_mNRPN t msb lsb data : track_op qsort t (mNRPN msb lsb data t)
| op_mTmp t tmp t' : mTmp tmp t = Some t' -> track_op qsort t t'
| op_mMetaEvent t type data : track_op qsort t (mMetaEvent type data t)
| op_mEnd t : track_op qsort t (mEnd t)
| op_gDPos t adr : track_op qsort t (set_gDPos adr t)
| op_gRPos t adr : track_op qsort t (set_gRPos adr t).

(** ** States used in the statements *)

(** Track 0, reset and started at offset 0. *)
Definition fresh_track : Track_t := Start 0 (Reset 0 Track_zero).

(** Two notes, of keys 60 and 62, put on in that order on a fresh track with
    durations [d1] and [d2]. *)
Definition two_notes (d1 d2 : Z) : Track_t :=
  mNoteOn 62 100 d2 (mNoteOn 60 100 d1 fresh_track).

(** The session when the loop of the entry track takes its first turn:
    after [gData.Reset()], [gTrack[0].Start(mdOff)] and the seek of the first
    pass. *)
Definition entry_state (mdOff : Z) : RSeq :=
  mkRSeq (<[0%nat := Start mdOff (Reset 0 Track_zero)]> (gTrack gData_Reset))
         mdOff [MsgBegin; MsgStarted 0 mdOff].

(** The RPN idiom on channel 0 at delta 0: select MSB, select LSB, data
    entry. *)
Definition rpn_triple (rng : Z) : list Z :=
  [0; 0xB0; 0x65; 0; 0; 0xB0; 0x64; 0; 0; 0xB0; 0x06; rng].

(** ** Which slots a run touches *)

(** The log records that the track of index [idx] was started. *)
Definition is_start_of (idx : Z) (m : Msg) : bool :=
  match m with
  | MsgStarted j _ => j =? idx
  | _ => false
  end.

Definition restarted (idx : Z) (log : list Msg) : bool :=
  existsb (is_start_of idx) log.

(** A computation only appends to the log, and (under [P]) leaves slot [k]
    as it is when the slot holds [t] and the appended log does not record a
    start of [t]. *)
Definition frames {A} (k : nat) (t : Track_t) (P : Prop) (m : M A) : Prop :=
  forall s a s', m s = Ok (a, s') ->
    exists ext, dlog s' = dlog s ++ ext /\
      (P -> gTrack s !! k = Some t -> restarted (gIndx t) ext = false ->
       gTrack s' !! k = Some t).
(** ** Integer facts *)

Lemma u8_small x : 0 <= x < 256 -> u8 x = x.
Proof. intros; unfold u8; apply Z.mod_small; lia. Qed.

Lemma u32_small x : 0 <= x < 4294967296 -> u32 x = x.
Proof. intros; unfold u32; apply Z.mod_small; lia. Qed.

Lemma u32_range x : 0 <= u32 x < 4294967296.
Proof. unfold u32; apply Z.mod_pos_bound; lia. Qed.

Lemma u8_range x : 0 <= u8 x < 256.
Proof. unfold u8; apply Z.mod_pos_bound; lia. Qed.

Lemma land_127 x : Z.land x 127 = x mod 128.
Proof. change 127 with (Z.ones 7); rewrite Z.land_ones by lia; reflexivity. Qed.

Lemma land_128_low x : 0 <= x < 128 -> Z.land x 128 = 0.
Proof.
  intros H. apply Z.bits_inj'; intros n Hn.
  rewrite Z.land_spec, Z.bits_0.
  destruct (Z.eq_dec n 7) as [->|Hne].
  - replace (Z.testbit x 7) with false; [reflexivity|].
    symmetry; apply Z.bits_above_log2; [lia|].
    destruct (Z.eq_dec x 0) as [->|]; [simpl; lia|].
    apply Z.log2_lt_pow2; lia.
  - change 128 with (2 ^ 7). rewrite Z.pow2_bits_eqb by lia.
    destruct (Z.eqb_spec 7 n); [lia|]. apply andb_false_r.
Qed.

Lemma lor_shift7 a x : 0 <= a -> 0 <= x < 128 -> Z.lor (Z.shiftl a 7) x = a * 128 + x.
Proof.
  intros Ha Hx.
  rewrite Z.shiftl_mul_pow2 by lia. change (2 ^ 7) with 128.
  rewrite <- Z.lxor_lor, <- Z.add_nocarry_lxor; try reflexivity.
  all: apply Z.bits_inj'; intros n Hn; rewrite Z.land_spec, Z.bits_0;
    destruct (Z_lt_le_dec n 7);
    [ replace (a * 128) with (a * 2 ^ 7) by reflexivity;
      rewrite Z.mul_pow2_bits_low by lia; reflexivity
    | replace (Z.testbit x n) with false; [apply andb_false_r|];
      symmetry; destruct (Z.eq_dec x 0) as [->|]; [apply Z.bits_0|];
      apply Z.bits_above_log2; [lia|];
      apply Z.lt_le_trans with 7; [apply Z.log2_lt_pow2; lia|lia] ].
Qed.

Lemma lor_128_low x : 0 <= x < 128 -> Z.lor x 128 = x + 128.
Proof.
  intros Hx. rewrite Z.lor_comm.
  change 128 with (Z.shiftl 1 7) at 1. rewrite lor_shift7; lia.
Qed.

Lemma land_128_high x : 0 <= x < 128 -> Z.land (x + 128) 128 = 128.
Proof.
  intros Hx. rewrite <- lor_128_low by lia.
  rewrite Z.land_lor_distr_l, land_128_low by lia. reflexivity.
Qed.

(** ** The variable-length codec *)

Lemma shiftr7 t i : 0 <= i -> Z.shiftr t (7 * i) = t / 128 ^ i.
Proof.
  intros Hi. rewrite Z.shiftr_div_pow2 by lia.
  rewrite Z.pow_mul_r by lia. reflexivity.
Qed.

Lemma div_pow128_succ t i :
  0 <= t -> 0 <= i -> t / 128 ^ (i + 1) * 128 + (t / 128 ^ i) mod 128 = t / 128 ^ i.
Proof.
  intros Ht Hi.
  rewrite Z.pow_add_r, Z.pow_1_r by lia.
  rewrite <- Z.div_div by (try apply Z.pow_pos_nonneg; lia).
  pose proof (Z.div_mod (t / 128 ^ i) 128). lia.
Qed.

Lemma PushDelta_emit_length i t : length (PushDelta_emit i t) = S i.
Proof. induction i; simpl; congruence. Qed.

Lemma PushDelta_count_spec bound n c :
  0 <= n < 128 ^ Z.of_nat bound ->
  exists k, PushDelta_count bound n c = (c + k)%nat /\ n / 128 ^ (Z.of_nat k + 1) = 0.
Proof.
  revert n c. induction bound as [|b IH]; intros n c Hn.
  - exists 0%nat. split; [simpl; lia|]. apply Z.div_small. simpl in Hn. lia.
  - simpl PushDelta_count. destruct (Z.gtb_spec n 127) as [Hgt|Hle].
    + destruct (IH (Z.shiftr n 7) (S c)) as (k & Hk & Hz).
      { rewrite Z.shiftr_div_pow2 by lia. change (2 ^ 7) with 128.
        split; [apply Z.div_pos; lia|].
        apply Z.div_lt_upper_bound; [lia|].
        rewrite Nat2Z.inj_succ, Z.pow_succ_r in Hn by lia. lia. }
      exists (S k). split; [lia|].
      rewrite Z.shiftr_div_pow2 in Hz by lia. change (2 ^ 7) with 128 in Hz.
      rewrite Z.div_div in Hz by (try apply Z.pow_pos_nonneg; lia).
      rewrite Nat2Z.inj_succ.
      replace (Z.succ (Z.of_nat k) + 1) with (1 + (Z.of_nat k + 1)) by lia.
      rewrite Z.pow_add_r, Z.pow_1_r by lia. exact Hz.
    + exists 0%nat. split; [lia|]. apply Z.div_small. simpl. lia.
Qed.

Lemma ReadVarLen_from_emit i : forall t acc off rest,
  0 <= t < 4294967296 ->
  acc = t / 128 ^ (Z.of_nat i + 1) ->
  ReadVarLen_from (PushDelta_emit i t ++ rest) acc off
  = Some (t, off + Z.of_nat i + 1).
Proof.
  induction i as [|j IH]; intros t acc off rest Ht Hacc.
  - cbn [PushDelta_emit app ReadVarLen_from].
    rewrite shiftr7, land_127 by lia.
    change (128 ^ Z.of_nat 0) with 1. rewrite Z.div_1_r.
    assert (Hm : 0 <= t mod 128 < 128) by (apply Z.mod_pos_bound; lia).
    rewrite !(u8_small (t mod 128)), (u32_small (t mod 128)) by lia.
    rewrite land_128_low by lia. cbn [Z.eqb].
    rewrite land_127, Z.mod_mod by lia.
    rewrite lor_shift7 by (subst acc; try apply Z.div_pos; try apply Z.pow_pos_nonneg; lia).
    subst acc. pose proof (div_pow128_succ t 0).
    change (128 ^ 0) with 1 in H. rewrite Z.div_1_r in H.
    change (Z.of_nat 0 + 1) with (0 + 1). rewrite H, u32_small by lia.
    do 2 f_equal. lia.
  - cbn [PushDelta_emit app ReadVarLen_from].
    rewrite shiftr7, land_127 by lia.
    set (v := (t / 128 ^ Z.of_nat (S j)) mod 128).
    assert (Hv : 0 <= v < 128) by (apply Z.mod_pos_bound; lia).
    rewrite lor_128_low by lia.
    rewrite !(u8_small (v + 128)), (u32_small (v + 128)) by lia.
    rewrite land_128_high by lia. cbn [Z.eqb].
    rewrite land_127.
    replace ((v + 128) mod 128) with v
      by (rewrite <- (Z.mod_small v 128) at 1 by lia;
          rewrite <- (Z_mod_plus_full v 1 128); f_equal).
    assert (Hq : 0 <= t / 128 ^ (Z.of_nat (S j) + 1))
      by (apply Z.div_pos; [lia|apply Z.pow_pos_nonneg; lia]).
    rewrite lor_shift7 by (subst acc; lia).
    subst acc v. rewrite div_pow128_succ by lia.
    assert (Hle : 0 <= t / 128 ^ Z.of_nat (S j) <= t).
    { split; [apply Z.div_pos; [lia|apply Z.pow_pos_nonneg; lia]|].
      apply Z.div_le_upper_bound; [apply Z.pow_pos_nonneg; lia|].
      assert (0 < 128 ^ Z.of_nat (S j)) by (apply Z.pow_pos_nonneg; lia). nia. }
    rewrite u32_small by lia.
    rewrite IH; [do 2 f_equal; lia|lia|].
    f_equal. f_equal. lia.
Qed.

(** Reading back what [PushDelta] wrote gives the tick count, as a [u32],
    and stops right behind it. *)
Lemma ReadVarLen_PushDelta_bytes t pre rest :
  ReadVarLen (pre ++ PushDelta_bytes t ++ rest) (Z.of_nat (length pre))
  = Some (u32 t, Z.of_nat (length pre) + Z.of_nat (length (PushDelta_bytes t))).
Proof.
  unfold ReadVarLen, PushDelta_bytes.
  rewrite Nat2Z.id, drop_app_length.
  pose proof (u32_range t) as Hr.
  destruct (PushDelta_count_spec 5 (u32 t) 0) as (k & Hk & Hz);
    [change (128 ^ Z.of_nat 5) with 34359738368; lia|].
  rewrite Hk. cbn [Nat.add].
  rewrite PushDelta_emit_length.
  rewrite ReadVarLen_from_emit by (try rewrite Hz; lia).
  do 2 f_equal. lia.
Qed.

(** ** What the emitters append *)

Lemma fold_push_back l : forall t,
  fold_left (fun t a => push_back a t) l t = set_gData (gData t ++ map u8 l) t.
Proof.
  induction l as [|a l IH]; intros [];
    [unfold set_gData; cbn; rewrite app_nil_r; reflexivity|].
  cbn [fold_left]. rewrite IH. unfold push_back, set_gData; cbn.
  rewrite <- app_assoc. reflexivity.
Qed.

(** [Event] appends the pending delta, the status byte and the arguments,
    and clears the pending delta; no other field changes. *)
Lemma Event_eq ev argv t :
  Event ev argv t
  = set_gData (gData t ++ PushDelta_bytes (gWait t) ++
               u8 (Z.lor ev (gIndx t)) :: map u8 argv) (set_gWait 0 t).
Proof.
  unfold Event. rewrite fold_push_back. destruct t.
  unfold push_back, ProcDelta, PushDelta, set_gData, set_gWait; cbn.
  rewrite <- !app_assoc. reflexivity.
Qed.

Lemma push_note_off_eq n t :
  push_note_off n t
  = set_gData (gData t ++ [u8 (Z.lor 0x90 (gIndx t)); u8 (key n); 0]) t.
Proof.
  destruct t. unfold push_note_off, push_back, set_gData; cbn.
  rewrite <- !app_assoc. reflexivity.
Qed.

Lemma mEnd_flush_eq ns : forall t,
  fold_left (fun t note => push_note_off note (set_gWait 0 (PushDelta (gWait t) t))) ns t
  = set_gData (gData t ++ flush_bytes (gIndx t) (gWait t) ns)
      (set_gWait (match ns with [] => gWait t | _ => 0 end) t).
Proof.
  induction ns as [|n ns IH]; intros t.
  - destruct t; unfold set_gData, set_gWait; cbn. rewrite app_nil_r. reflexivity.
  - cbn [fold_left flush_bytes]. rewrite IH, push_note_off_eq.
    destruct t; unfold PushDelta, set_gData, set_gWait; cbn.
    rewrite <- !app_assoc. cbn. destruct ns; reflexivity.
Qed.

Lemma mEnd_eq t :
  mEnd t
  = mkTrack (gIndx t) 0 (gTrns t) (gRPNR t) 0 (gDPos t) (gGPos t) (gRPos t) []
      (gData t ++ flush_bytes (gIndx t) (gWait t) (gNote t) ++
       PushDelta_bytes (match gNote t with [] => gWait t | _ => 0 end) ++
       [u8 (Z.lor 0xFF (gIndx t)); 0x2F; 0]).
Proof.
  unfold mEnd. rewrite mEnd_flush_eq, Event_eq.
  destruct t; unfold set_gData, set_gWait, set_gNote, set_gStat; cbn.
  rewrite <- !app_assoc. reflexivity.
Qed.

Section StepFacts.
Variable qsort : (Note_t -> Note_t -> Z) -> list Note_t -> list Note_t.
Variables ignoreJumps debugCtrls : bool.
Variable rseq : list Z.
Variable gLabels : gmap Z (list Z).
Variable mdOff : Z.

Lemma bind_Ok {A B} (m : M A) (k : A -> M B) s a s' :
  m s = Ok (a, s') -> bind m k s = k a s'.
Proof. unfold bind; intros ->; reflexivity. Qed.

Lemma getc_eq s c off :
  fgetc rseq (rseq_off s) = (c, off) ->
  getc rseq s = Ok (u32 c, mkRSeq (gTrack s) off (dlog s)).
Proof. unfold getc; intros ->; reflexivity. Qed.

Lemma readBE_eq s b v off :
  ReadBE rseq (rseq_off s) b = (v, off) ->
  readBE rseq b s = Ok (v, mkRSeq (gTrack s) off (dlog s)).
Proof. unfold readBE; intros ->; reflexivity. Qed.

Lemma on_track_eq i m s t :
  gTrack s !! Z.to_nat i = Some t ->
  on_track i m s
  = Ok (tt, mkRSeq (<[Z.to_nat i := m t]> (gTrack s)) (rseq_off s) (dlog s)).
Proof. unfold on_track, bind, track_at; intros ->; reflexivity. Qed.

(** An opcode byte that the switch does not list: the [default] branch
    logs it and the loop goes on. *)
Lemma step_unknown i s curpos s1 c off :
  label_phase gLabels mdOff i s = Ok (curpos, s1) ->
  fgetc rseq (rseq_off s1) = (c, off) ->
  0x80 <= u32 c ->
  decode_cmd (u32 c) = None ->
  step qsort ignoreJumps debugCtrls rseq gLabels mdOff i s
  = Ok (true, mkRSeq (gTrack s1) off (dlog s1 ++ [MsgUnknown (u32 c)])).
Proof.
  intros Hl Hc Hge Hd. unfold step.
  rewrite (bind_Ok _ _ _ _ _ Hl), (bind_Ok _ _ _ _ _ (getc_eq _ _ _ Hc)).
  destruct (Z.ltb_spec (u32 c) 0x80); [lia|].
  rewrite Hd. reflexivity.
Qed.

Lemma on_track_twice i m1 m2 s t :
  gTrack s !! Z.to_nat i = Some t ->
  bind (on_track i m1) (fun _ => on_track i m2) s
  = Ok (tt, mkRSeq (<[Z.to_nat i := m2 (m1 t)]> (gTrack s)) (rseq_off s) (dlog s)).
Proof.
  intros Ht. rewrite (bind_Ok _ _ _ _ _ (on_track_eq _ _ _ _ Ht)).
  erewrite on_track_eq
    by (cbn; apply list_lookup_insert_eq; eapply lookup_lt_Some; eauto).
  cbn. rewrite list_insert_insert_eq. reflexivity.
Qed.

Lemma mMetaEvent_eq type data t :
  mMetaEvent type data t
  = set_gData (gData t ++ PushDelta_bytes (gWait t) ++
               [u8 (Z.lor 0xFF (gIndx t)); u8 type] ++
               PushDelta_bytes (Z.of_nat (length data)) ++ map u8 data)
      (set_gWait 0 t).
Proof.
  unfold mMetaEvent. rewrite fold_push_back, Event_eq.
  destruct t; unfold PushDelta, set_gData, set_gWait; cbn.
  rewrite <- !app_assoc. reflexivity.
Qed.

Lemma jump_msgbuf_text (forwards : bool) :
  jump_msgbuf (if forwards then "forwards" else "backwards")%string
    (if ignoreJumps then "ignored"
     else if forwards then "taken" else "Track End")%string
  = c_str (jump_text forwards ignoreJumps).
Proof. destruct forwards, ignoreJumps; reflexivity. Qed.

Lemma bind_on_track {B} i m (k : unit -> M B) s t :
  gTrack s !! Z.to_nat i = Some t ->
  bind (on_track i m) k s
  = k tt (mkRSeq (<[Z.to_nat i := m t]> (gTrack s)) (rseq_off s) (dlog s)).
Proof. intros Ht. apply bind_Ok, on_track_eq, Ht. Qed.

Lemma lookup_insert_same (l : list Track_t) n t x :
  l !! n = Some t -> <[n := x]> l !! n = Some x.
Proof. intros H. apply list_lookup_insert_eq. eapply lookup_lt_Some; eauto. Qed.

Lemma exec_jump_eq i s rel off t :
  ReadBE rseq (rseq_off s) 24 = (rel, off) ->
  gTrack s !! Z.to_nat i = Some t ->
  let adr := u32 (rel + mdOff) in
  let forwards := adr >? off in
  let noted := mMetaEvent 0x06 (c_str (jump_text forwards ignoreJumps)) t in
  let log := dlog s ++ [MsgJump i forwards adr] in
  exec_jump ignoreJumps rseq mdOff i s
  = Ok (if ignoreJumps then
          (true, mkRSeq (<[Z.to_nat i := noted]> (gTrack s)) off log)
        else if forwards then
          (true, mkRSeq (<[Z.to_nat i := set_gDPos adr noted]> (gTrack s)) adr log)
        else
          (false, mkRSeq (<[Z.to_nat i := mEnd noted]> (gTrack s)) off log)).
Proof.
  intros Hr Ht adr forwards noted log. subst noted log forwards adr.
  unfold exec_jump.
  rewrite (bind_Ok _ _ _ _ _ (readBE_eq _ _ _ _ Hr)).
  unfold ftell at 1. cbn [bind rseq_off].
  rewrite jump_msgbuf_text.
  unfold DebugMsg at 1. cbn [bind gTrack rseq_off dlog].
  rewrite (bind_on_track i _ _ (mkRSeq (gTrack s) off _) t Ht).
  cbn [gTrack rseq_off dlog].
  generalize (mMetaEvent 6 (c_str (jump_text (u32 (rel + mdOff) >? off) ignoreJumps)) t).
  intros noted.
  destruct ignoreJumps; cbn [negb]; [reflexivity|].
  destruct (u32 (rel + mdOff) >? off).
  - erewrite bind_on_track by (cbn [gTrack]; eapply lookup_insert_same, Ht).
    cbn [gTrack rseq_off dlog]. rewrite list_insert_insert_eq. reflexivity.
  - erewrite bind_on_track by (cbn [gTrack]; eapply lookup_insert_same, Ht).
    cbn [gTrack rseq_off dlog]. rewrite list_insert_insert_eq. reflexivity.
Qed.
End StepFacts.

Lemma bind_Crash {A B} (m : M A) (k : A -> M B) s e :
  m s = Crash e -> bind m k s = Crash e.
Proof. unfold bind; intros ->; reflexivity. Qed.

Section RunFacts.
Variable qsort : (Note_t -> Note_t -> Z) -> list Note_t -> list Note_t.
Variables ignoreJumps debugCtrls : bool.
Variable rseq : list Z.
Variable gLabels : gmap Z (list Z).
Variable mdOff : Z.

(** A pass comes to an active track: it seeks to the track's offset and
    runs its loop. *)
Lemma pass_active steps i rest c st t :
  gTrack st !! Z.to_nat i = Some t ->
  gStat t <> 0 ->
  pass qsort ignoreJumps debugCtrls rseq gLabels mdOff steps (i :: rest) c st
  = bind (track_loop qsort ignoreJumps debugCtrls rseq gLabels mdOff steps i)
      (fun _ => bind (DebugMsg (MsgOK i)) (fun _ => pass qsort ignoreJumps debugCtrls rseq gLabels mdOff steps rest true))
      (mkRSeq (gTrack st) (gDPos t) (dlog st)).
Proof.
  intros Ht Hs. cbn [pass].
  unfold bind at 1, track_at. rewrite Ht.
  destruct (Z.eqb_spec (gStat t) 0); [contradiction|]. reflexivity.
Qed.

Lemma pass_inactive steps i rest c st t :
  gTrack st !! Z.to_nat i = Some t ->
  gStat t = 0 ->
  pass qsort ignoreJumps debugCtrls rseq gLabels mdOff steps (i :: rest) c st = pass qsort ignoreJumps debugCtrls rseq gLabels mdOff steps rest c st.
Proof.
  intros Ht Hs. cbn [pass].
  unfold bind at 1, track_at. rewrite Ht, Hs. reflexivity.
Qed.

(** The first thing a run does is a turn of the loop of track 0 at the
    entry offset; a fault there is the outcome of the run. *)
Lemma rseqDo_first_step_crash e p s :
  step qsort ignoreJumps debugCtrls rseq gLabels mdOff 0 (entry_state mdOff) = Crash e ->
  rseqDo qsort ignoreJumps debugCtrls rseq gLabels mdOff (S p) (S s) gData_Reset = Crash e.
Proof.
  intros H. unfold rseqDo.
  erewrite bind_Ok by reflexivity.
  erewrite bind_Ok by reflexivity.
  apply bind_Crash. cbn [main_loop]. apply bind_Crash.
  unfold track_indices. cbn [map seq].
  erewrite (pass_active (S s) (Z.of_nat 0)) by (try reflexivity; cbn; lia).
  apply bind_Crash. cbn [track_loop]. apply bind_Crash. exact H.
Qed.
End RunFacts.

(** ** Sorting *)

Lemma insert_by_perm before x l : Permutation (x :: l) (insert_by before x l).
Proof.
  induction l as [|y r IH]; cbn [insert_by]; [reflexivity|].
  destruct (before x y); [reflexivity|].
  rewrite perm_swap. apply perm_skip, IH.
Qed.

Lemma isort_by_perm before l : Permutation l (isort_by before l).
Proof.
  induction l as [|x l IH]; cbn; [reflexivity|].
  rewrite <- insert_by_perm. apply perm_skip, IH.
Qed.

Section InsertionSort.
Variable cmp : Note_t -> Note_t -> Z.
Variable before : Note_t -> Note_t -> bool.
Variable dom : list Note_t.
Hypothesis cmp_ok : cmp_consistent cmp dom.
Hypothesis before_true : forall x y, before x y = true -> cmp x y <= 0.
Hypothesis before_false :
  forall x y, In x dom -> In y dom -> before x y = false -> cmp y x <= 0.

Lemma insert_by_sorted x l :
  In x dom -> incl l dom ->
  StronglySorted (fun a b => cmp a b <= 0) l ->
  StronglySorted (fun a b => cmp a b <= 0) (insert_by before x l).
Proof.
  intros Hx Hl Hs. induction Hs as [|y r Hs IH Hy]; cbn [insert_by].
  - repeat constructor.
  - assert (Hyd : In y dom) by (apply Hl; left; reflexivity).
    assert (Hrd : incl r dom) by (intros z Hz; apply Hl; right; exact Hz).
    destruct (before x y) eqn:Hb.
    + constructor; [constructor; assumption|].
      constructor; [apply before_true, Hb|].
      rewrite List.Forall_forall in Hy |- *. intros z Hz.
      destruct cmp_ok as [_ Htr].
      apply (Htr x y z); auto.
    + constructor; [apply IH, Hrd|].
      rewrite List.Forall_forall in Hy |- *. intros z Hz.
      apply (Permutation_in _ (Permutation_sym (insert_by_perm before x r))) in Hz.
      destruct Hz as [<-|Hz]; [apply before_false; assumption|apply Hy, Hz].
Qed.

Lemma isort_by_sorted l :
  incl l dom -> StronglySorted (fun a b => cmp a b <= 0) (isort_by before l).
Proof.
  induction l as [|x l IH]; intros Hl; cbn; [constructor|].
  apply insert_by_sorted.
  - apply Hl; left; reflexivity.
  - intros z Hz. apply Hl. right.
    apply (Permutation_in _ (Permutation_sym (isort_by_perm before l))), Hz.
  - apply IH. intros z Hz; apply Hl; right; exact Hz.
Qed.
End InsertionSort.

(** Both routines meet the contract of [qsort]. *)
Lemma qsort_stable_contract : qsort_contract qsort_stable.
Proof.
  intros cmp l Hc. split; [apply isort_by_perm|].
  apply (isort_by_sorted cmp _ l Hc).
  - intros x y H. apply Z.leb_le, H.
  - intros x y Hx Hy H. apply Z.leb_gt in H.
    destruct Hc as [Hs _]. destruct (Hs y x Hy Hx) as [[_ H1] _]. specialize (H1 H). lia.
  - apply incl_refl.
Qed.

Lemma qsort_unstable_contract : qsort_contract qsort_unstable.
Proof.
  intros cmp l Hc. split; [apply isort_by_perm|].
  apply (isort_by_sorted cmp _ l Hc).
  - intros x y H. apply Z.ltb_lt in H. lia.
  - intros x y Hx Hy H. apply Z.ltb_ge in H.
    destruct Hc as [Hs _]. destruct (Hs y x Hy Hx) as [[H1 _] [_ H2]].
    destruct (Z.eq_dec (cmp x y) 0) as [E|E]; [rewrite (H2 E); lia|].
    destruct (Z_lt_le_dec (cmp y x) 0) as [L|L]; [lia|].
    destruct (Z.eq_dec (cmp y x) 0) as [E'|E']; [lia|].
    destruct (Hs x y Hx Hy) as [[_ H3] _]. assert (0 < cmp y x) by lia.
    specialize (H3 H0). lia.
  - apply incl_refl.
Qed.

(** Where the end ticks are [u32] values less than 2^31 apart, [NoteSortCmp]
    is their difference. *)
Lemma NoteSortCmp_exact a b :
  0 <= pos a < 4294967296 -> 0 <= pos b < 4294967296 ->
  - 2147483648 < pos a - pos b < 2147483648 ->
  NoteSortCmp a b = pos a - pos b.
Proof.
  intros Ha Hb Hd. unfold NoteSortCmp, s32, u32.
  destruct (Z_lt_le_dec (pos a - pos b) 0) as [Hn|Hn].
  - rewrite <- (Z_mod_plus_full _ 1), Z.mod_small by lia.
    destruct (Z.ltb_spec (pos a - pos b + 1 * 4294967296) 2147483648); lia.
  - rewrite Z.mod_small by lia.
    destruct (Z.ltb_spec (pos a - pos b) 2147483648); lia.
Qed.


Lemma NoteSortCmp_within g l a b :
  0 <= g -> notes_within g l -> In a l -> In b l ->
  NoteSortCmp a b = pos a - pos b.
Proof.
  intros Hg Hl Ha Hb. unfold notes_within in Hl. rewrite List.Forall_forall in Hl.
  pose proof (Hl a Ha). pose proof (Hl b Hb).
  apply NoteSortCmp_exact; lia.
Qed.

Lemma NoteSortCmp_consistent g l :
  0 <= g -> notes_within g l -> cmp_consistent NoteSortCmp l.
Proof.
  intros Hg Hl. split.
  - intros a b Ha Hb.
    rewrite (NoteSortCmp_within g l a b), (NoteSortCmp_within g l b a) by assumption.
    lia.
  - intros a b c Ha Hb Hc.
    rewrite (NoteSortCmp_within g l a b), (NoteSortCmp_within g l b c),
      (NoteSortCmp_within g l a c) by assumption.
    lia.
Qed.

Lemma sorted_by_pos g dom s :
  0 <= g -> notes_within g dom -> incl s dom ->
  StronglySorted (fun a b => NoteSortCmp a b <= 0) s ->
  StronglySorted (fun a b => pos a <= pos b) s.
Proof.
  intros Hg Hw Hin Hs. induction Hs as [|a r Hs IH Ha]; constructor.
  - apply IH. intros x Hx. apply Hin. right; exact Hx.
  - rewrite List.Forall_forall in Ha |- *. intros x Hx. specialize (Ha x Hx).
    rewrite (NoteSortCmp_within g dom a x Hg Hw) in Ha;
      [lia|apply Hin; left; reflexivity|apply Hin; right; exact Hx].
Qed.

(** What a [qsort] that meets its contract makes of the note vector. *)
Lemma qsort_notes qsort g l :
  qsort_contract qsort -> 0 <= g -> notes_within g l ->
  Permutation l (qsort NoteSortCmp l) /\
  StronglySorted (fun a b => pos a <= pos b) (qsort NoteSortCmp l) /\
  notes_within g (qsort NoteSortCmp l).
Proof.
  intros Hq Hg Hl.
  destruct (Hq NoteSortCmp l (NoteSortCmp_consistent g l Hg Hl)) as [Hp Hs].
  assert (Hw : notes_within g (qsort NoteSortCmp l))
    by (unfold notes_within; rewrite <- Hp; exact Hl).
  repeat split; try assumption.
  apply (sorted_by_pos g (qsort NoteSortCmp l)); auto using incl_refl.
Qed.

(** ** [Wait] *)

Lemma flushed_fields n d trk :
  let trk' := push_note_off n (PushDelta d trk) in
  gGPos trk' = gGPos trk /\ gWait trk' = gWait trk /\ gNote trk' = gNote trk /\
  gIndx trk' = gIndx trk /\ gStat trk' = gStat trk.
Proof. destruct trk; cbn. repeat split. Qed.

(** Notes that all end after [pPos] are stepped over. *)
Lemma Wait_loop_late l pPos trk timeLeft :
  Forall (fun n => pPos < pos n) l ->
  Wait_loop l pPos trk timeLeft = (l, trk, timeLeft).
Proof.
  induction 1 as [|n l Hn Hl IH]; cbn [Wait_loop]; [reflexivity|].
  destruct (Z.gtb_spec (pos n) pPos); [|lia]. rewrite IH. reflexivity.
Qed.

(** On a sorted vector whose notes end at or after the track's position,
    and with the target below 2^32, the [for] of [Wait] is the "repeatedly
    remove the earliest note" of the specification. *)
Lemma Wait_loop_advance l : forall target trk timeLeft,
  StronglySorted (fun a b => pos a <= pos b) l ->
  Forall (fun n => gGPos trk <= pos n) l ->
  0 <= gGPos trk -> 0 <= timeLeft ->
  gGPos trk + timeLeft = target -> target < 4294967296 ->
  Wait_loop l target trk timeLeft = advance_loop l target trk timeLeft.
Proof.
  induction l as [|n l IH]; intros target trk tl Hs Hf Hg Htl Ht Hlt;
    [reflexivity|].
  cbn [Wait_loop advance_loop].
  apply StronglySorted_inv in Hs. destruct Hs as [Hs Hn].
  apply Forall_cons_1 in Hf. destruct Hf as [Hgn Hf].
  destruct (Z.gtb_spec (pos n) target) as [Hgt|Hle].
  - destruct (Z.leb_spec (pos n) target); [lia|].
    rewrite Wait_loop_late; [reflexivity|].
    rewrite List.Forall_forall in Hn |- *. intros x Hx. specialize (Hn x Hx). lia.
  - destruct (Z.leb_spec (pos n) target); [|lia].
    rewrite (u32_small (pos n - gGPos trk)) by lia.
    destruct (flushed_fields n (pos n - gGPos trk) trk) as (Eg & _).
    rewrite Eg.
    rewrite (u32_small (gGPos trk + (pos n - gGPos trk))) by lia.
    rewrite (u32_small (tl - (pos n - gGPos trk))) by lia.
    apply IH; cbn [gGPos set_gGPos]; try lia; try assumption.
    rewrite List.Forall_forall in Hn |- *. intros x Hx. specialize (Hn x Hx). lia.
Qed.

(** What the loop of the specification leaves, under the same conditions. *)
Lemma advance_loop_spec l : forall target trk ticks,
  StronglySorted (fun a b => pos a <= pos b) l ->
  Forall (fun n => gGPos trk <= pos n) l ->
  gGPos trk + ticks = target -> 0 <= ticks ->
  match advance_loop l target trk ticks with
  | (kept, trk', remaining) =>
      gGPos trk' + remaining = target /\ 0 <= remaining <= ticks /\
      gWait trk' = gWait trk /\ gIndx trk' = gIndx trk /\
      gStat trk' = gStat trk /\
      incl kept l /\ Forall (fun n => target < pos n) kept
  end.
Proof.
  induction l as [|n l IH]; intros target trk tl Hs Hf Ht Htl.
  - cbn. repeat split; try lia; [apply incl_refl|constructor].
  - cbn [advance_loop].
    apply StronglySorted_inv in Hs. destruct Hs as [Hs Hn].
    apply Forall_cons_1 in Hf. destruct Hf as [Hgn Hf].
    destruct (Z.leb_spec (pos n) target) as [Hle|Hgt].
    + destruct (flushed_fields n (pos n - gGPos trk) trk) as (Eg & Ew & _ & Ei & Es).
      rewrite Eg.
      set (trk1 := set_gGPos _ _).
      specialize (IH target trk1 (tl - (pos n - gGPos trk)) Hs).
      destruct (advance_loop l target trk1 (tl - (pos n - gGPos trk)))
        as [[kept trk'] rem].
      assert (E1 : gGPos trk1 = gGPos trk + (pos n - gGPos trk)) by reflexivity.
      destruct IH as (H1 & H2 & H3 & H4 & H5 & H6 & H7); try lia.
      { rewrite List.Forall_forall in Hn |- *. intros x Hx. specialize (Hn x Hx). lia. }
      repeat split; try lia; try assumption;
        first [ exact (eq_trans H3 Ew) | exact (eq_trans H4 Ei)
              | exact (eq_trans H5 Es) | intros x Hx; right; apply H6, Hx ].
    + repeat split; try lia; [apply incl_refl|].
      constructor; [lia|].
      rewrite List.Forall_forall in Hn |- *. intros x Hx. specialize (Hn x Hx). lia.
Qed.

Lemma Wait_eq qsort t ticks :
  qsort_contract qsort -> trk_ok t ->
  0 <= ticks -> gGPos t + ticks < 4294967296 ->
  let sorted := qsort NoteSortCmp (gNote t) in
  let target := gGPos t + ticks in
  Wait qsort ticks t
  = (let '(kept, trk, remaining) := advance_loop sorted target t ticks in
     set_gWait (u32 (gWait trk + remaining))
       (set_gGPos (gGPos trk + remaining) (set_gNote kept trk))) /\
  Permutation (gNote t) sorted /\
  StronglySorted (fun a b => pos a <= pos b) sorted /\
  notes_within (gGPos t) sorted.
Proof.
  intros Hq [Hg Hw] Ht Hlt sorted target.
  destruct (qsort_notes qsort (gGPos t) (gNote t) Hq (proj1 Hg) Hw) as (Hp & Hs & Hw').
  fold sorted in Hp, Hs, Hw'. repeat split; try assumption.
  unfold Wait.
  replace (match gNote t with [] => [] | _ :: _ => qsort NoteSortCmp (gNote t) end)
    with sorted.
  2:{ subst sorted. destruct (gNote t) eqn:E; [|reflexivity].
      apply Permutation_nil in Hp. congruence. }
  rewrite (u32_small (gGPos t + ticks)) by lia. fold target.
  assert (Hf : Forall (fun n => gGPos t <= pos n) sorted).
  { unfold notes_within in Hw'. rewrite List.Forall_forall in Hw' |- *.
    intros n Hn. specialize (Hw' n Hn). lia. }
  rewrite Wait_loop_advance by (try assumption; subst target; lia).
  pose proof (advance_loop_spec sorted target t ticks Hs Hf eq_refl Ht) as Hspec.
  destruct (advance_loop sorted target t ticks) as [[kept trk'] rem].
  destruct Hspec as (H1 & H2 & _).
  cbn [gGPos set_gNote]. rewrite (u32_small (gGPos trk' + rem)) by (subst target; lia).
  destruct trk'; reflexivity.
Qed.

(** ** The calls on a running track keep its ticks in order *)

Section TrackOps.
Variable qsort : (Note_t -> Note_t -> Z) -> list Note_t -> list Note_t.
Hypothesis qsort_ok : qsort_contract qsort.

Lemma trk_ok_same t t' :
gGPos t' = gGPos t -> gNote t' = gNote t -> trk_ok t -> trk_ok t'.
Proof. unfold trk_ok. intros -> ->. auto. Qed.

Lemma Event_time ev argv t :
gGPos (Event ev argv t) = gGPos t /\ gNote (Event ev argv t) = gNote t.
Proof. rewrite Event_eq. destruct t; split; reflexivity. Qed.

Lemma track_op_ok t t' :
trk_ok t -> track_op qsort t t' -> trk_ok t' /\ gGPos t <= gGPos t'.
Proof.
intros Hok Hop.
destruct Hop as
  [t key vel time Ht Hlt | t timeLeft Ht Hlt | t prg | t a b | t v | t v
  | t v | t v | t rng | t msb lsb data | t tmp t' Htmp | t type data | t
  | t adr | t adr].
- destruct Hok as [Hg Hw]. unfold mNoteOn.
  destruct (Event_time 0x90 [key; vel] t) as [Eg En].
  unfold trk_ok. cbn [gGPos gNote set_gNote]. rewrite Eg, En.
  repeat split; try lia.
  unfold notes_within. apply Forall_app. split; [exact Hw|].
  constructor; [|constructor]. cbn [pos]. rewrite u32_small by lia. lia.
- destruct (Wait_eq qsort t timeLeft qsort_ok Hok Ht Hlt) as (E & Hp & Hs & Hwi).
  rewrite E. clear E.
  assert (Hf : Forall (fun n => gGPos t <= pos n) (qsort NoteSortCmp (gNote t))).
  { unfold notes_within in Hwi. rewrite List.Forall_forall in Hwi |- *.
    intros n Hn. specialize (Hwi n Hn). lia. }
  pose proof (advance_loop_spec _ (gGPos t + timeLeft) t timeLeft Hs Hf eq_refl Ht)
    as Hspec.
  destruct (advance_loop _ (gGPos t + timeLeft) t timeLeft) as [[kept trk'] rem].
  destruct Hspec as (H1 & H2 & _ & _ & _ & Hincl & Hlate).
  destruct Hok as [Hg _].
  unfold trk_ok. cbn [gGPos gNote set_gWait set_gGPos set_gNote].
  repeat split; try lia.
  unfold notes_within in *. rewrite List.Forall_forall in Hwi, Hlate |- *.
  intros n Hn. specialize (Hlate n Hn). specialize (Hwi n (Hincl n Hn)). lia.
- destruct (Event_time 0xC0 [prg] t). split; [apply (trk_ok_same t); auto|]. unfold mPrg; lia.
- destruct (Event_time 0xB0 [a; b] t). split; [apply (trk_ok_same t); auto|]. unfold mGenCtrl; lia.
- destruct (Event_time 0xB0 [0x07; v] t). split; [apply (trk_ok_same t); auto|]. unfold mVol; lia.
- destruct (Event_time 0xB0 [0x0A; v] t). split; [apply (trk_ok_same t); auto|]. unfold mPan; lia.
- destruct (Event_time 0xB0 [0x0B; v] t). split; [apply (trk_ok_same t); auto|]. unfold mExp; lia.
- unfold mBnd. match goal with |- context [Event ?e ?a t] =>
    destruct (Event_time e a t) end.
  split; [apply (trk_ok_same t); auto|lia].
- assert (gGPos (mBndRng rng t) = gGPos t /\ gNote (mBndRng rng t) = gNote t) as [Eg En].
  { unfold mBndRng. destruct (gRPNR t =? 0); rewrite !Event_eq; destruct t; split; reflexivity. }
  split; [apply (trk_ok_same t); auto|lia].
- assert (gGPos (mNRPN msb lsb data t) = gGPos t /\
          gNote (mNRPN msb lsb data t) = gNote t) as [Eg En].
  { unfold mNRPN. rewrite !Event_eq; destruct t; split; reflexivity. }
  split; [apply (trk_ok_same t); auto|lia].
- unfold mTmp in Htmp. destruct (tmp =? 0); [discriminate|].
  injection Htmp as <-.
  match goal with |- context [Event ?e ?a t] => destruct (Event_time e a t) end.
  split; [apply (trk_ok_same t); auto|lia].
- rewrite mMetaEvent_eq. split; [apply (trk_ok_same t); destruct t; auto|].
  destruct t; cbn; lia.
- rewrite mEnd_eq. destruct Hok as [Hg _]. unfold trk_ok. cbn.
  repeat split; try lia. constructor.
- split; [apply (trk_ok_same t); destruct t; auto|]. destruct t; cbn; lia.
- split; [apply (trk_ok_same t); destruct t; auto|]. destruct t; cbn; lia.
Qed.

End TrackOps.

(** ** Which tracks a run touches *)

Section Frames.
Variable k : nat.
Variable t : Track_t.

Lemma frames_weaken {A} (P Q : Prop) (m : M A) :
(Q -> P) -> frames k t P m -> frames k t Q m.
Proof.
intros HPQ Hm s a s' E. destruct (Hm s a s' E) as (ext & Hl & Hk).
exists ext. split; auto.
Qed.

Lemma frames_ret {A} P (a : A) : frames k t P (ret a).
Proof.
intros s a' s' E. injection E as <- <-. exists [].
rewrite app_nil_r. auto.
Qed.

Lemma frames_bind {A B} P (m : M A) (f : A -> M B) :
frames k t P m -> (forall a, frames k t P (f a)) -> frames k t P (bind m f).
Proof.
intros Hm Hf s b s2 E. unfold bind in E.
destruct (m s) as [[a s1]| | |] eqn:Em; try discriminate.
destruct (Hm s a s1 Em) as (e1 & Hl1 & Hk1).
destruct (Hf a s1 b s2 E) as (e2 & Hl2 & Hk2).
exists (e1 ++ e2). split; [rewrite Hl2, Hl1, app_assoc; reflexivity|].
intros HP Hs Hq. unfold restarted in *. rewrite existsb_app in Hq.
apply orb_false_iff in Hq. destruct Hq as [Hq1 Hq2]. auto.
Qed.

Lemma frames_if {A} P (c : bool) (m1 m2 : M A) :
frames k t P m1 -> frames k t P m2 -> frames k t P (if c then m1 else m2).
Proof. destruct c; auto. Qed.

(** A computation that leaves the tracks alone. *)
Lemma frames_tracks_kept {A} P (m : M A) :
(forall s a s', m s = Ok (a, s') ->
   gTrack s' = gTrack s /\ exists ext, dlog s' = dlog s ++ ext) ->
frames k t P m.
Proof.
intros H s a s' E. destruct (H s a s' E) as (Ht & ext & Hl).
exists ext. split; [exact Hl|]. rewrite Ht. auto.
Qed.

Lemma frames_ftell P : frames k t P ftell.
Proof.
apply frames_tracks_kept. intros s a s' E. injection E as <- <-.
split; [reflexivity|]. exists []. rewrite app_nil_r. reflexivity.
Qed.

Lemma frames_fseek P off : frames k t P (fseek off).
Proof.
apply frames_tracks_kept. intros s a s' E. injection E as <- <-.
split; [reflexivity|]. exists []. cbn. rewrite app_nil_r. reflexivity.
Qed.

Lemma frames_DebugMsg P m : frames k t P (DebugMsg m).
Proof.
apply frames_tracks_kept. intros s a s' E. injection E as <- <-.
split; [reflexivity|]. exists [m]. reflexivity.
Qed.

Lemma frames_getc P rseq : frames k t P (getc rseq).
Proof.
apply frames_tracks_kept. intros s a s' E. unfold getc in E.
destruct (fgetc rseq (rseq_off s)). injection E as <- <-.
split; [reflexivity|]. exists []. cbn. rewrite app_nil_r. reflexivity.
Qed.

Lemma frames_readBE P rseq b : frames k t P (readBE rseq b).
Proof.
apply frames_tracks_kept. intros s a s' E. unfold readBE in E.
destruct (ReadBE rseq (rseq_off s) b). injection E as <- <-.
split; [reflexivity|]. exists []. cbn. rewrite app_nil_r. reflexivity.
Qed.

Lemma frames_readVarLen P rseq : frames k t P (readVarLen rseq).
Proof.
apply frames_tracks_kept. intros s a s' E. unfold readVarLen in E.
destruct (ReadVarLen rseq (rseq_off s)) as [[v off]|]; [|discriminate].
injection E as <- <-.
split; [reflexivity|]. exists []. cbn. rewrite app_nil_r. reflexivity.
Qed.

Lemma frames_track_at P idx : frames k t P (track_at idx).
Proof.
apply frames_tracks_kept. intros s a s' E. unfold track_at in E.
destruct (gTrack s !! Z.to_nat idx); [|discriminate]. injection E as <- <-.
split; [reflexivity|]. exists []. rewrite app_nil_r. reflexivity.
Qed.

(** A member function run on another slot. *)
Lemma frames_on_track i m : frames k t (Z.to_nat i <> k) (on_track i m).
Proof.
intros s a s' E. unfold on_track, bind, track_at in E.
destruct (gTrack s !! Z.to_nat i); [|discriminate]. injection E as <- <-.
exists []. cbn. rewrite app_nil_r. split; [reflexivity|].
intros Hne Hs _. rewrite list_lookup_insert_ne by exact Hne. exact Hs.
Qed.

Lemma frames_on_track_mTmp i tmp : frames k t (Z.to_nat i <> k) (on_track_mTmp i tmp).
Proof.
unfold on_track_mTmp. apply frames_bind.
- apply (frames_weaken True); [auto|]. apply frames_track_at.
- intros t0. destruct (mTmp tmp t0); [apply frames_on_track|].
  intros s a s' E. discriminate E.
Qed.

(** [Start] on any slot: if it is slot [k], the log says so. *)
Lemma frames_Start_track P idx adr : frames k t P (Start_track idx adr).
Proof.
intros s a s' E. unfold Start_track, on_track, bind, track_at, DebugMsg in E.
destruct (gTrack s !! Z.to_nat idx) as [t0|] eqn:E0; [|discriminate].
cbn in E. rewrite E0 in E. injection E as <- <-.
exists [MsgStarted (gIndx t0) adr]. cbn. split; [reflexivity|].
intros _ Hs Hq.
destruct (Nat.eq_dec (Z.to_nat idx) k) as [Heq|Hne].
- rewrite Heq in E0. assert (t0 = t) as -> by congruence.
  rewrite Z.eqb_refl in Hq. discriminate Hq.
- rewrite list_lookup_insert_ne by exact Hne. exact Hs.
Qed.
End Frames.

Ltac frames_tac :=
  repeat first
    [ apply frames_on_track | apply frames_on_track_mTmp
    | apply frames_Start_track
    | apply frames_ret | apply frames_ftell | apply frames_fseek
    | apply frames_DebugMsg | apply frames_getc | apply frames_readBE
    | apply frames_readVarLen | apply frames_track_at | apply frames_if
    | apply frames_bind; [|intros ?] ].

Section RunFrames.
Variable qsort : (Note_t -> Note_t -> Z) -> list Note_t -> list Note_t.
Variables ignoreJumps debugCtrls : bool.
Variable rseq : list Z.
Variable gLabels : gmap Z (list Z).
Variable mdOff : Z.
Variable k : nat.
Variable t : Track_t.

Lemma frames_exec i cmd curpos c :
frames k t (Z.to_nat i <> k)
  (exec qsort ignoreJumps debugCtrls rseq mdOff i cmd curpos c).
Proof.
destruct c; unfold exec, exec_jump, debug_pair, debug_ctrl; cbv zeta; frames_tac.
Qed.

Lemma frames_step i :
frames k t (Z.to_nat i <> k)
  (step qsort ignoreJumps debugCtrls rseq gLabels mdOff i).
Proof.
unfold step, label_phase. frames_tac.
- destruct (gLabels !! _); frames_tac.
- destruct (decode_cmd _); [apply frames_exec|frames_tac].
Qed.

Lemma frames_track_loop steps i :
frames k t (Z.to_nat i <> k)
  (track_loop qsort ignoreJumps debugCtrls rseq gLabels mdOff steps i).
Proof.
induction steps as [|n IH]; cbn [track_loop].
- intros s a s' E. discriminate E.
- apply frames_bind; [apply frames_step|]. intros loop.
  apply frames_if; [exact IH|apply frames_ret].
Qed.

(** A pass steps over a track that is off. *)
Lemma frames_pass steps idxs : forall c,
gStat t = 0 ->
frames k t True (pass qsort ignoreJumps debugCtrls rseq gLabels mdOff steps idxs c).
Proof.
induction idxs as [|i rest IH]; intros c Hoff; cbn [pass];
  [apply frames_ret|].
intros s a s' E. unfold bind at 1, track_at in E.
destruct (gTrack s !! Z.to_nat i) as [trk|] eqn:Ei; [|discriminate].
destruct (Z.eqb_spec (gStat trk) 0) as [Hz|Hnz].
- exact (IH c Hoff s a s' E).
- assert (Hf : frames k t (Z.to_nat i <> k)
      (run fseek (gDPos trk);
       run track_loop qsort ignoreJumps debugCtrls rseq gLabels mdOff steps i;
       run DebugMsg (MsgOK i);
       pass qsort ignoreJumps debugCtrls rseq gLabels mdOff steps rest true)).
  { frames_tac; [apply frames_track_loop|].
    apply (frames_weaken k t True); [auto|apply IH, Hoff]. }
  destruct (Hf s a s' E) as (ext & Hl & Hk).
  exists ext. split; [exact Hl|]. intros _ Hs Hq. apply Hk; auto.
  intros Heq. rewrite Heq in Ei. congruence.
Qed.

Lemma frames_main_loop passes steps :
gStat t = 0 ->
frames k t True
  (main_loop qsort ignoreJumps debugCtrls rseq gLabels mdOff passes steps).
Proof.
intros Hoff. induction passes as [|p IH]; cbn [main_loop].
- intros s a s' E. discriminate E.
- apply frames_bind; [apply frames_pass, Hoff|]. intros c.
  apply frames_if; [exact IH|apply frames_ret].
Qed.
End RunFrames.

Section SplitFacts.
Variable qsort : (Note_t -> Note_t -> Z) -> list Note_t -> list Note_t.
Variables ignoreJumps debugCtrls : bool.

Lemma step_split_out_of_range rseq gLabels mdOff i s curpos s1 off1 trk off2 :
label_phase gLabels mdOff i s = Ok (curpos, s1) ->
fgetc rseq (rseq_off s1) = (0x88, off1) ->
ReadBE rseq off1 8 = (trk, off2) ->
gTrack s1 !! Z.to_nat trk = None ->
step qsort ignoreJumps debugCtrls rseq gLabels mdOff i s
= Crash (TrackIndexOutOfRange trk).
Proof.
intros Hl Hc Hr Hn. unfold step.
rewrite (bind_Ok _ _ _ _ _ Hl), (bind_Ok _ _ _ _ _ (getc_eq _ _ _ _ Hc)).
change (u32 136) with 136. cbn [Z.ltb Z.compare Pos.compare Pos.compare_cont decode_cmd exec].
erewrite bind_Ok by (apply readBE_eq; exact Hr).
destruct (ReadBE rseq off2 24) as [rel off3] eqn:Hr2.
erewrite bind_Ok by (apply readBE_eq; exact Hr2).
apply bind_Crash. unfold Start_track. apply bind_Crash.
unfold track_at. cbn [gTrack]. rewrite Hn. reflexivity.
Qed.

Lemma label_phase_no_labels mdOff i s :
label_phase ∅ mdOff i s = Ok (u32 (rseq_off s - mdOff), s).
Proof.
unfold label_phase, bind, ftell. rewrite lookup_empty. reflexivity.
Qed.

End SplitFacts.

(** Reading back from a track's buffer what [PushDelta] appended to it. *)
Lemma ReadVarLen_PushDelta t trk :
  0 <= t < 4294967296 ->
  ReadVarLen (gData (PushDelta t trk)) (Z.of_nat (length (gData trk)))
  = Some (t, Z.of_nat (length (gData (PushDelta t trk)))).
Proof.
  intros Ht. destruct trk; cbn [gData PushDelta set_gData].
  pose proof (ReadVarLen_PushDelta_bytes t gData0 []) as H.
  rewrite app_nil_r in H. rewrite H, u32_small by lia.
  rewrite length_app, Nat2Z.inj_add. reflexivity.
Qed.

(** * The properties of the specification *)
Section MinimalTrack.
Variable qsort : (Note_t -> Note_t -> Z) -> list Note_t -> list Note_t.
Variables ignoreJumps debugCtrls : bool.

(** C1, as the code has it. For the entry track running the bytecode
    [note-on key=60 vel=100 dur=96][end-of-track 0xFF] (whatever follows it
    in the file, whatever the switches and the sorting routine, and for
    every step budget of at least two passes and three opcodes), the output
    is the header declaring one track followed by one track chunk whose
    events are: delta 0, note-on(60,100); delta 0, note-off(60,0) -- the note
    is cut by the end of the track, not held for its 96 ticks --; delta 0,
    end-of-track. The header bytes are spelled out: the track count is 1. *)
Theorem C1_minimal_track rest p s :
  (exists st,
     rseqDo qsort ignoreJumps debugCtrls ([60; 100; 96; 0xFF] ++ rest) ∅ 0
       (2 + p) (3 + s) gData_Reset
     = Ok (midiHeader 1 ++
           trkChunk (PushDelta_bytes 0 ++ [0x90; 60; 100] ++
                     PushDelta_bytes 0 ++ [0x90; 60; 0] ++
                     PushDelta_bytes 0 ++ [0xFF; 0x2F; 0]), st)) /\
  midiHeader 1 = [0x4D; 0x54; 0x68; 0x64; 0; 0; 0; 6; 0; 1; 0; 1; 0; 96].
Proof. split; [eexists; vm_compute|]; reflexivity. Qed.
End MinimalTrack.

(** The event sequence with the note-off 96 ticks after the note-on is not
    what the run writes. *)
Lemma C1_note_off_delta_is_not_96 :
  ~ exists st,
      rseqDo qsort_stable false false [60; 100; 96; 0xFF] ∅ 0 2 3 gData_Reset
      = Ok (midiHeader 1 ++
            trkChunk (PushDelta_bytes 0 ++ [0x90; 60; 100] ++
                      PushDelta_bytes 96 ++ [0x90; 60; 0] ++
                      PushDelta_bytes 0 ++ [0xFF; 0x2F; 0]), st).
Proof. intros [st H]. vm_compute in H. discriminate H. Qed.

(** C2, as the code has it. A bend-range opcode writes the RPN select pair
    (controller 0x65, then 0x64) only when [gRPNR] is clear, and sets it;
    the data entry (controller 0x06) is written every time; [mBndRng] never
    clears [gRPNR]. So a bend-range opcode that follows another one writes
    the data entry alone. *)
Theorem C2_bend_range_selects_once rng rng' t :
  let status := u8 (Z.lor 0xB0 (gIndx t)) in
  gData (mBndRng rng t)
  = gData t ++ PushDelta_bytes (gWait t) ++
    (if gRPNR t =? 0
     then [status; 0x65; 0] ++ PushDelta_bytes 0 ++
          [status; 0x64; 0] ++ PushDelta_bytes 0
     else []) ++
    [status; 0x06; u8 rng] /\
  gRPNR (mBndRng rng t) = (if gRPNR t =? 0 then 1 else gRPNR t) /\
  gData (mBndRng rng' (mBndRng rng t))
  = gData (mBndRng rng t) ++ PushDelta_bytes 0 ++ [status; 0x06; u8 rng'].
Proof.
  intros status.
  assert (H1 : forall r t0, gRPNR t0 <> 0 ->
            mBndRng r t0
            = set_gData (gData t0 ++ PushDelta_bytes (gWait t0) ++
                         [u8 (Z.lor 0xB0 (gIndx t0)); 0x06; u8 r]) (set_gWait 0 t0)).
  { intros r t0 Hn. unfold mBndRng.
    destruct (Z.eqb_spec (gRPNR t0) 0); [contradiction|]. apply Event_eq. }
  assert (H0 : gRPNR t = 0 ->
            mBndRng rng t
            = set_gData (gData t ++ PushDelta_bytes (gWait t) ++
                         [status; 0x65; 0] ++ PushDelta_bytes 0 ++
                         [status; 0x64; 0] ++ PushDelta_bytes 0 ++
                         [status; 0x06; u8 rng]) (set_gRPNR 1 (set_gWait 0 t))).
  { intros Hz. unfold mBndRng. rewrite Hz. cbn [Z.eqb].
    rewrite !Event_eq. subst status.
    destruct t; unfold set_gData, set_gWait, set_gRPNR; cbn.
    rewrite <- !app_assoc. reflexivity. }
  destruct (Z.eqb_spec (gRPNR t) 0) as [Hz|Hn].
  - specialize (H0 Hz).
    rewrite (H1 rng' (mBndRng rng t)) by (rewrite H0; destruct t; cbn; lia).
    rewrite H0. destruct t; cbn. rewrite <- !app_assoc. repeat split.
  - pose proof (H1 rng t Hn) as E.
    rewrite (H1 rng' (mBndRng rng t)) by (rewrite E; destruct t; cbn in *; lia).
    rewrite E. destruct t; cbn. repeat split.
Qed.

(** Two bend-range opcodes in a row, then the end of the track: the output
    is not two full RPN triples. *)
Lemma C2_second_bend_range_has_no_select :
  ~ exists st,
      rseqDo qsort_stable false false [0xC5; 2; 0xC5; 12; 0xFF] ∅ 0 2 3 gData_Reset
      = Ok (midiHeader 1 ++
            trkChunk (rpn_triple 2 ++ rpn_triple 12 ++ [0; 0xFF; 0x2F; 0]), st).
Proof. intros [st H]. vm_compute in H. discriminate H. Qed.

Section UnknownOpcode.
Variable qsort : (Note_t -> Note_t -> Z) -> list Note_t -> list Note_t.
Variables ignoreJumps debugCtrls : bool.

(** C3, as the code has it. When the opcode byte read (after the label of
    the offset, if any, was written) matches no [case] of the switch, the
    turn of the loop only logs the warning: the tracks are as they were, so
    the track stays on, the one byte is consumed (none at the end of the
    file), and the loop goes on with the next turn. *)
Theorem C3_unknown_opcode_is_skipped rseq gLabels mdOff i s curpos s1 c off :
  label_phase gLabels mdOff i s = Ok (curpos, s1) ->
  fgetc rseq (rseq_off s1) = (c, off) ->
  0x80 <= u32 c ->
  decode_cmd (u32 c) = None ->
  let s' := mkRSeq (gTrack s1) off (dlog s1 ++ [MsgUnknown (u32 c)]) in
  step qsort ignoreJumps debugCtrls rseq gLabels mdOff i s = Ok (true, s') /\
  forall n,
    track_loop qsort ignoreJumps debugCtrls rseq gLabels mdOff (S n) i s
    = track_loop qsort ignoreJumps debugCtrls rseq gLabels mdOff n i s'.
Proof.
  intros Hl Hc Hge Hd s'.
  pose proof (step_unknown qsort ignoreJumps debugCtrls rseq gLabels mdOff
                i s curpos s1 c off Hl Hc Hge Hd) as Hs.
  split; [exact Hs|]. intros n. cbn [track_loop].
  rewrite (bind_Ok _ _ _ _ _ Hs). reflexivity.
Qed.
End UnknownOpcode.

Lemma C3_unknown_opcode_is_skipped_witness :
  decode_cmd (u32 0xD7) = None /\
  step qsort_stable false false [0xD7; 0xFF] ∅ 0 0 (entry_state 0)
  = Ok (true, mkRSeq (gTrack (entry_state 0)) 1
                (dlog (entry_state 0) ++ [MsgUnknown (u32 0xD7)])).
Proof.
  split; [reflexivity|].
  refine (proj1 (C3_unknown_opcode_is_skipped qsort_stable false false
                   [0xD7; 0xFF] ∅ 0 0 (entry_state 0) 0 (entry_state 0) 0xD7 1
                   _ _ _ _)).
  - reflexivity.
  - reflexivity.
  - vm_compute. discriminate.
  - reflexivity.
Defined.

(** The byte 0xD7 is in no [case]: the turn that reads it does not stop the
    loop, and the run plays the note that follows it. *)
Lemma C3_unknown_opcode_does_not_end_track :
  (~ exists s',
       step qsort_stable false false [0xD7; 60; 100; 96; 0xFF] ∅ 0 0 (entry_state 0)
       = Ok (false, s')) /\
  exists st,
    rseqDo qsort_stable false false [0xD7; 60; 100; 96; 0xFF] ∅ 0 2 4 gData_Reset
    = Ok (midiHeader 1 ++
          trkChunk [0; 0x90; 60; 100; 0; 0x90; 60; 0; 0; 0xFF; 0x2F; 0], st).
Proof.
  split.
  - intros [s' H]. vm_compute in H. discriminate H.
  - eexists. vm_compute. reflexivity.
Qed.




Section JumpPolicy.
Variable qsort : (Note_t -> Note_t -> Z) -> list Note_t -> list Note_t.
Variables ignoreJumps debugCtrls : bool.

End JumpPolicy.


Section NoteScheduler.
Variable qsort : (Note_t -> Note_t -> Z) -> list Note_t -> list Note_t.
Hypothesis qsort_ok : qsort_contract qsort.


End NoteScheduler.

Lemma two_notes_ok d1 d2 :
  0 <= d1 < 2147483648 -> 0 <= d2 < 2147483648 -> trk_ok (two_notes d1 d2).
Proof.
  intros H1 H2. unfold trk_ok, notes_within.
  change (gGPos (two_notes d1 d2)) with 0.
  change (gNote (two_notes d1 d2)) with [mkNote 60 (u32 (0 + d1)); mkNote 62 (u32 (0 + d2))].
  split; [lia|]. repeat constructor; cbn [pos]; rewrite u32_small; lia.
Qed.



(** C7. For every tick value [t] in {0, 1, 127, 128, 16383, 16384, 2097151}
    and every track, reading with [ReadVarLen] the bytes that [PushDelta]
    appended to the track's buffer gives exactly [t], and the read stops at
    the end of the buffer. *)
Theorem C7_varlen_roundtrip :
  Forall (fun t => forall trk,
            ReadVarLen (gData (PushDelta t trk)) (Z.of_nat (length (gData trk)))
            = Some (t, Z.of_nat (length (gData (PushDelta t trk)))))
         [0; 1; 127; 128; 16383; 16384; 2097151].
Proof.
  repeat constructor; intros trk; apply ReadVarLen_PushDelta; lia.
Qed.



Section Faults.
Variable qsort : (Note_t -> Note_t -> Z) -> list Note_t -> list Note_t.
Variables ignoreJumps debugCtrls : bool.

(** C9. The split opcode (0x88) indexes the sixteen slots with its target
    byte as it is read: a file whose entry track begins with a split to a
    target of 16 or more ends the run in the index fault, at the first
    opcode. *)
Theorem C9_split_index_unchecked target rest p s :
  16 <= target < 256 ->
  rseqDo qsort ignoreJumps debugCtrls (0x88 :: target :: rest) ∅ 0 (S p) (S s)
    gData_Reset
  = Crash (TrackIndexOutOfRange target).
Proof.
  intros Ht. apply rseqDo_first_step_crash.
  eapply step_split_out_of_range.
  - apply label_phase_no_labels.
  - reflexivity.
  - unfold ReadBE. change (Z.to_nat (8 / 8)) with 1%nat.
    cbn [ReadBE_loop]. unfold fgetc. cbn [rseq_off entry_state].
    change (Z.to_nat (0 + 1)) with 1%nat. cbn [lookup list_lookup].
    rewrite u8_small, Z.shiftl_0_r, u32_small, Z.lor_0_l by lia. reflexivity.
  - apply lookup_ge_None_2. cbn. lia.
Qed.

(** C10. The tempo opcode (0xE1) divides 60000000 by its two-byte argument
    as it is read: [mTmp] has no result for 0, and a file whose entry track
    begins with a tempo of 0 ends the run in the division fault, at the
    first opcode. *)
Theorem C10_tempo_zero_divides rest p s :
  (forall trk, mTmp 0 trk = None) /\
  rseqDo qsort ignoreJumps debugCtrls (0xE1 :: 0 :: 0 :: rest) ∅ 0 (S p) (S s)
    gData_Reset
  = Crash DivisionByZero.
Proof. split; [reflexivity|]. vm_compute. reflexivity. Qed.
End Faults.

Lemma C9_split_index_unchecked_witness :
  16 <= 16 < 256 /\
  rseqDo qsort_stable false false [0x88; 16; 0; 0; 0] ∅ 0 1 1 gData_Reset
  = Crash (TrackIndexOutOfRange 16).
Proof.
  split; [lia|].
  apply (C9_split_index_unchecked qsort_stable false false 16 [0; 0; 0] 0%nat 0%nat).
  lia.
Defined.
